(** * Kallisto EM: a shallow embedding of [kallisto_em.py]

    The module implements the expectation-maximisation iteration that
    estimates transcript abundances from a read/transcript assignment
    matrix.  The three functions of the module are embedded here:
    [e_step], [m_step] and [run_em_algorithm].

    Numbers.  The program computes on numpy [float64] arrays.  The
    main embedding computes on exact rationals in canonical form
    ([Qc]): every arithmetic operation of the source is the
    corresponding exact operation.  Rounding, infinities and NaN have
    no counterpart there, so the two agree (up to rounding) only while
    no product or sum leaves the range of [float64] and no sum cancels.
    Where a statement is about the values that a step computes from
    arbitrary arrays, its hypotheses keep the arrays in that range:
    non-negative entries and [in_range], or entries that are
    probabilities.  Module [F64] embeds [e_step] and [m_step] a second
    time, on binary64 numbers, to show what the code does outside that
    range.

    Arrays.  A 1-D array is a [list Qc]; a 2-D array is the list of its
    rows.  numpy arrays are rectangular; where a statement depends on it
    the hypothesis [rect R M] says that every row of [M] has [R]
    entries.  A [0 x R] array is the empty list of rows.

    Errors.  A Python exception is a [Raise] result. *)

From Stdlib Require Import QArith Qcanon Qcabs DecimalString.
From Stdlib Require PrimFloat.
From stdpp Require Import base list numbers strings gmap.

Local Open Scope Qc_scope.

(** [[x]] is a one-element list here, not an absolute value. *)
Disable Notation "[ q ]" : Qc_scope.

(** ** Exceptions and the error monad *)

(** The exceptions the three functions can raise.
    - [BroadcastError]: numpy's [ValueError] "operands could not be
      broadcast together", raised by an elementwise operation on arrays
      of incompatible shapes;
    - [ZeroSizeReduction]: numpy's [ValueError] "zero-size array to
      reduction operation maximum which has no identity";
    - [ZeroDivisionError]: Python's own, raised by [1.0 / 0]. *)
Inductive exn : Type :=
  | BroadcastError
  | ZeroSizeReduction
  | ZeroDivisionError.

Inductive result (A : Type) : Type :=
  | Ok (a : A)
  | Raise (e : exn).
Arguments Ok {A} a.
Arguments Raise {A} e.

(** [x ← r; k] runs [k] on the value of [r] and propagates an exception. *)
#[global] Instance result_ret : MRet result := fun A a => Ok a.
#[global] Instance result_bind : MBind result := fun A B k r =>
  match r with
  | Ok a => k a
  | Raise e => Raise e
  end.

(** ** Arrays *)

Abbreviation vector := (list Qc).
Abbreviation matrix := (list (list Qc)).

Definition rect (R : nat) (M : matrix) : Prop :=
  Forall (fun row => length row = R) M.

(** Number of columns, [M.shape[1]]. *)
Definition ncols (M : matrix) : nat :=
  match M with
  | [] => 0%nat
  | row :: _ => length row
  end.

(** Column [r] of a matrix, [M[:, r]]. *)
Definition col (r : nat) (M : matrix) : vector :=
  map (fun row => nth r row 0) M.

Definition Qcltb (x y : Qc) : bool := bool_decide (x < y).
Definition Qceqb (x y : Qc) : bool := bool_decide (x = y).
Definition Qcmax (x y : Qc) : Qc := if Qcltb x y then y else x.

(** [v.sum()] of a 1-D array. *)
Definition vsum (v : vector) : Qc := foldr Qcplus 0 v.

(** [M.sum(axis=1)]: one sum per row. *)
Definition sum_axis1 (M : matrix) : vector := map vsum M.

(** [M.sum(axis=0, keepdims=True)]: one sum per column, rows added
    entry by entry onto a zero row. *)
Fixpoint sum_axis0 (R : nat) (M : matrix) : vector :=
  match M with
  | [] => replicate R 0
  | row :: M' => zip_with Qcplus row (sum_axis0 R M')
  end.

(** [A * pi[:, None]] with numpy's broadcasting of the shapes [(T, R)]
    and [(L, 1)]: the row counts must agree or one of them must be 1. *)
Definition broadcast_mul (A : matrix) (pi : vector) : result matrix :=
  let T := length A in
  let L := length pi in
  if (T =? L)%nat then
    Ok (zip_with (fun row p => map (fun a => a * p) row) A pi)
  else if (L =? 1)%nat then
    Ok (map (fun row => map (fun a => a * hd 0 pi) row) A)
  else if (T =? 1)%nat then
    Ok (map (fun p => map (fun a => a * p) (hd [] A)) pi)
  else Raise BroadcastError.

(** [x - y] on 1-D arrays, with the same broadcasting rule. *)
Definition broadcast_sub (x y : vector) : result vector :=
  let n := length x in
  let m := length y in
  if (n =? m)%nat then Ok (zip_with Qcminus x y)
  else if (m =? 1)%nat then Ok (map (fun a => a - hd 0 y) x)
  else if (n =? 1)%nat then Ok (map (fun b => hd 0 x - b) y)
  else Raise BroadcastError.

(** [np.max(v)]: fails on an empty array. *)
Definition np_max (v : vector) : result Qc :=
  match v with
  | [] => Raise ZeroSizeReduction
  | x :: v' => Ok (foldl Qcmax x v')
  end.

(** [np.divide(W, s, out=np.zeros_like(W), where=s != 0)]: entry
    [(t, r)] is [W[t, r] / s[r]] where [s[r] != 0] and keeps the 0 of
    [out] elsewhere. *)
Definition safe_divide (W : matrix) (s : vector) : matrix :=
  map (fun row => zip_with (fun w c => if Qceqb c 0 then 0 else w / c) row s) W.

(** [1.0 / n] for a Python int [n]. *)
Definition one_over (n : nat) : result Qc :=
  match n with
  | O => Raise ZeroDivisionError
  | S _ => Ok (1 / Qc_of_Z (Z.of_nat n))
  end.

(** [np.full(n, x)]. *)
Definition np_full (n : nat) (x : Qc) : vector := replicate n x.

(** ** The three functions *)

Definition e_step (transcript_abundance_vector : vector)
    (assignment_matrix : matrix) : result matrix :=
  let A := assignment_matrix in
  let pi := transcript_abundance_vector in
  weighted ← broadcast_mul A pi;
  let col_sums := sum_axis0 (ncols weighted) weighted in
  let posterior := safe_divide weighted col_sums in
  Ok posterior.

Definition m_step (posterior : matrix) (assignment_matrix : matrix)
    : result vector :=
  let expected_counts := sum_axis1 posterior in
  let total := vsum expected_counts in
  if Qcltb 0 total then
    Ok (map (fun c => c / total) expected_counts)
  else
    let T := length expected_counts in
    u ← one_over T;
    Ok (np_full T u).

(** How the [for] loop of [run_em_algorithm] ends. *)
Inductive loop_exit : Type :=
  | Converged (alpha : vector) (n_iterations : Z)
  | Exhausted (alpha : vector).

(** [np.max(np.abs(updated - alpha)) < tol]. *)
Definition converged (updated alpha : vector) (tol : Qc) : result bool :=
  d ← broadcast_sub updated alpha;
  m ← np_max (map Qcabs d);
  Ok (Qcltb m tol).

(** The loop [for iteration in range(max_iters)]: [remaining] counts
    the iterations still to run, [iteration] is the loop variable. *)
Fixpoint em_loop (assignment_matrix : matrix) (tol : Qc)
    (remaining : nat) (iteration : Z) (alpha : vector) : result loop_exit :=
  match remaining with
  | O => Ok (Exhausted alpha)
  | S remaining' =>
      posterior ← e_step alpha assignment_matrix;
      updated ← m_step posterior assignment_matrix;
      c ← converged updated alpha tol;
      if (c : bool) then Ok (Converged updated (iteration + 1))
      else em_loop assignment_matrix tol remaining' (iteration + 1) updated
  end.

(** Decimal rendering of a Python int in an f-string. *)
Definition str_of_int (n : Z) : string := NilZero.string_of_int (Z.to_int n).

Definition warning (max_iters : Z) : string :=
  String.append "Warning: EM algorithm did not converge after "
    (String.append (str_of_int max_iters) " iterations").

(** The starting vector: uniform when [initial_abundance is None], a
    copy of the supplied array otherwise. *)
Definition initialize (assignment_matrix : matrix)
    (initial_abundance : option vector) : result vector :=
  match initial_abundance with
  | None =>
      let n_transcripts := length assignment_matrix in
      u ← one_over n_transcripts;
      Ok (np_full n_transcripts u)
  | Some v => Ok v
  end.

(** [run_em_algorithm].  The last argument is the text already written
    to standard output; the second component of the value is standard
    output after the call. *)
Definition run_em_algorithm (assignment_matrix : matrix)
    (initial_abundance : option vector) (tol : Qc) (max_iters : Z)
    (stdout : list string) : result (vector * Z) * list string :=
  match initialize assignment_matrix initial_abundance with
  | Raise e => (Raise e, stdout)
  | Ok alpha =>
      match em_loop assignment_matrix tol (Z.to_nat max_iters) 0 alpha with
      | Raise e => (Raise e, stdout)
      | Ok (Converged alpha' n) => (Ok (alpha', n), stdout)
      | Ok (Exhausted alpha') =>
          (Ok (alpha', max_iters), stdout ++ [warning max_iters])
      end
  end.

(** Defaults of the keyword arguments. *)
Definition default_tol : Qc := Q2Qc (1 # 10000).
Definition default_max_iters : Z := 10000.

Definition create_example_data : matrix :=
  [ [1; 0; 1; 1; 1];
    [1; 1; 0; 0; 1];
    [1; 1; 1; 0; 0] ].

(** Arrays of [test_kallisto_em.py] and [demo.py]. *)
Definition test_assignment_matrix : matrix := [[1; 0]; [1; 1]].
Definition test_abundance : vector := [1 / 2; 1 / 2].
Definition test_posterior : matrix := [[1 / 2; 0]; [1 / 2; 1]].
Definition equal_matrix : matrix := [[1; 1]; [1; 1]].
Definition single_isoform : matrix := [[1; 1; 1]].
Definition demo_alpha : vector := [Q2Qc (6 # 10); Q2Qc (4 # 10)].

#[global] Instance exn_eq_dec : EqDecision exn.
Proof. solve_decision. Defined.
#[global] Instance result_eq_dec {A} `{EqDecision A} : EqDecision (result A).
Proof. solve_decision. Defined.
#[global] Instance loop_exit_eq_dec : EqDecision loop_exit.
Proof. solve_decision. Defined.

(** Closed decidable goals are settled by evaluation. *)
Ltac by_compute := apply (bool_decide_unpack _); vm_compute; exact I.

(** ** Predicates used in the statements *)

Definition nonneg (v : vector) : Prop := Forall (fun x => 0 <= x) v.
Definition nonneg2 (M : matrix) : Prop := Forall nonneg M.

Definition exit_alpha (ex : loop_exit) : vector :=
  match ex with
  | Converged alpha _ => alpha
  | Exhausted alpha => alpha
  end.

(** One pass through the loop body from [alpha]: both steps and the
    convergence test return, giving [updated] and the test's outcome. *)
Definition em_iteration (A : matrix) (tol : Qc) (alpha updated : vector)
    (c : bool) : Prop :=
  exists P, e_step alpha A = Ok P /\ m_step P A = Ok updated /\
    converged updated alpha tol = Ok c.

(** The matrix of [test_kallisto_em.py] with one entry made negative. *)
Definition negative_matrix : matrix := [[- 1; 1]; [1; 1]].

(** A probability. *)
Definition unit_interval (x : Qc) : Prop := 0 <= x /\ x <= 1.

(** A bound below which float64 sums do not overflow: [2^1023], half
    the binade of the largest float64. *)
Definition float64_bound : Qc := Qc_of_Z (2 ^ 1023).

(** The weighted total [sum_t A[t, r] * pi[t]] of every column is at
    most [float64_bound]. *)
Definition in_range (pi : vector) (A : matrix) (R : nat) : Prop :=
  forall r, (r < R)%nat ->
    vsum (zip_with Qcmult (col r A) pi) <= float64_bound.

(** A binary compatibility matrix: every entry is 0 or 1. *)
Definition binary (A : matrix) : Prop :=
  Forall (Forall (fun a => a = 0 \/ a = 1)) A.

(** Some read has support under [alpha]: a transcript of positive
    abundance is compatible with it, [A[t, r] * alpha[t] > 0]. *)
Definition supported (A : matrix) (alpha : vector) : Prop :=
  exists t r row a p,
    A !! t = Some row /\ row !! r = Some a /\ alpha !! t = Some p /\
    0 < a * p.

(** ** The display of [main]

    [main] runs [run_em_algorithm] on [create_example_data] and prints
    the estimate under isoform names.  The part embedded here is the
    association of names and abundances that it prints from (the
    number formatting of the printed lines is not embedded). *)

(** The isoform each row of [create_example_data] is commented with. *)
Definition row_isoform : list string := ["Red"; "Green"; "Blue"].

Definition isoform_names : list string := ["Red"; "Blue"; "Green"].

(** [dict(zip(isoform_names, [final_abundance[0], final_abundance[2],
    final_abundance[1]]))], in insertion order; [None] stands for the
    [IndexError] of an index out of range. *)
Definition main_results (final_abundance : vector)
    : option (list (string * Qc)) :=
  x0 ← final_abundance !! 0%nat;
  x2 ← final_abundance !! 2%nat;
  x1 ← final_abundance !! 1%nat;
  Some (zip isoform_names [x0; x2; x1]).

(** * The functions on numpy arrays in a store

    The definitions above treat arrays as values.  numpy arrays are
    mutable objects that the functions receive by reference, and two of
    the operations used are sensitive to that: [np.asarray(x,
    dtype=float)] returns [x] itself when [x] already is a float array,
    and [np.divide(..., out=z)] writes its result into [z].  This part
    embeds the same three functions over a store of arrays, operation
    by operation, to state what they do to the arrays they are given. *)

Module Heap.

Inductive dtype : Type := Int64 | Float64.

(** The arrays that occur: 1-D and 2-D numeric arrays, and the [1 x R]
    boolean array [col_sums != 0]. *)
Inductive ndarray : Type :=
  | Vec (dt : dtype) (v : vector)
  | Mat (dt : dtype) (M : matrix)
  | Mask (m : list bool).

Abbreviation loc := nat.

Record world : Type := World {
  heap : gmap loc ndarray;
  stdout : list string
}.

(** A computation ends with a value, with a Python exception, or is
    [Stuck]: it was given a reference to no array or to an array of a
    rank the embedding does not cover. *)
Inductive outcome (A : Type) : Type :=
  | Val (a : A)
  | Exn (e : exn)
  | Stuck.
Arguments Val {A} a.
Arguments Exn {A} e.
Arguments Stuck {A}.

#[global] Instance dtype_eq_dec : EqDecision dtype.
Proof. solve_decision. Defined.
#[global] Instance ndarray_eq_dec : EqDecision ndarray.
Proof. solve_decision. Defined.
#[global] Instance outcome_eq_dec {A} `{EqDecision A} : EqDecision (outcome A).
Proof. solve_decision. Defined.

Definition M (A : Type) : Type := world -> outcome A * world.

#[global] Instance M_ret : MRet M := fun A a w => (Val a, w).
#[global] Instance M_bind : MBind M := fun A B k m w =>
  match m w with
  | (Val a, w') => k a w'
  | (Exn e, w') => (Exn e, w')
  | (Stuck, w') => (Stuck, w')
  end.

Definition raise {A} (e : exn) : M A := fun w => (Exn e, w).
Definition stuck {A} : M A := fun w => (Stuck, w).

Definition lift {A} (r : result A) : M A :=
  match r with
  | Ok a => mret a
  | Raise e => raise e
  end.

(** A new array object. *)
Definition alloc (a : ndarray) : M loc := fun w =>
  let l := fresh (dom (heap w)) in
  (Val l, World (<[l := a]> (heap w)) (stdout w)).

Definition load (l : loc) : M ndarray := fun w =>
  match heap w !! l with
  | Some a => (Val a, w)
  | None => (Stuck, w)
  end.

(** Overwriting the contents of an existing array object. *)
Definition store (l : loc) (a : ndarray) : M unit := fun w =>
  (Val tt, World (<[l := a]> (heap w)) (stdout w)).

Definition print (s : string) : M unit := fun w =>
  (Val tt, World (heap w) (stdout w ++ [s])).

Definition load_vec (l : loc) : M vector :=
  a ← load l;
  match a with
  | Vec _ v => mret v
  | _ => stuck
  end.

Definition load_mat (l : loc) : M matrix :=
  a ← load l;
  match a with
  | Mat _ M => mret M
  | _ => stuck
  end.

(** [np.asarray(x, dtype=float)]: [x] itself when it is a float array,
    a converted copy otherwise. *)
Definition asarray_float (x : loc) : M loc :=
  a ← load x;
  match a with
  | Vec Float64 _ | Mat Float64 _ => mret x
  | Vec Int64 v => alloc (Vec Float64 v)
  | Mat Int64 M => alloc (Mat Float64 M)
  | Mask _ => stuck
  end.

(** [x.copy()]. *)
Definition copy (x : loc) : M loc :=
  a ← load x; alloc a.

(** [A * pi[:, None]]; the view [pi[:, None]] shares the buffer of
    [pi] and is only read. *)
Definition mul_column (A pi : loc) : M loc :=
  a ← load_mat A;
  p ← load_vec pi;
  w ← lift (broadcast_mul a p);
  alloc (Mat Float64 w).

(** [W.sum(axis=0, keepdims=True)], a [1 x R] array. *)
Definition sum_axis0_keepdims (W : loc) : M loc :=
  w ← load_mat W;
  alloc (Mat Float64 [sum_axis0 (ncols w) w]).

(** [np.zeros_like(W)]. *)
Definition zeros_like (W : loc) : M loc :=
  w ← load_mat W;
  alloc (Mat Float64 (map (map (fun _ => 0)) w)).

(** [s != 0] for a [1 x R] array [s]. *)
Definition not_equal_zero (s : loc) : M loc :=
  c ← load_mat s;
  alloc (Mask (map (fun x => negb (Qceqb x 0)) (hd [] c))).

(** [np.divide(W, s, out=out, where=mask)]: the quotient is written
    into [out] at the positions selected by [mask], the other entries
    of [out] keep their value; the value of the call is [out]. *)
Definition divide_where (W s out mask : loc) : M loc :=
  w ← load_mat W;
  c ← load_mat s;
  a ← load mask;
  o ← load_mat out;
  match a with
  | Mask m =>
      _ ← store out
            (Mat Float64
               (zip_with
                  (fun wrow orow =>
                     zip_with (fun (q : Qc * Qc) (b : bool * Qc) =>
                                 if b.1 then q.1 / q.2 else b.2)
                       (zip wrow (hd [] c)) (zip m orow))
                  w o));
      mret out
  | _ => stuck
  end.

(** [P.sum(axis=1)]. *)
Definition sum_rows (P : loc) : M loc :=
  p ← load_mat P;
  alloc (Vec Float64 (sum_axis1 p)).

(** [v.sum()], a scalar. *)
Definition sum_all (v : loc) : M Qc :=
  x ← load_vec v; mret (vsum x).

(** [v / total] for a scalar [total]. *)
Definition divide_scalar (v : loc) (total : Qc) : M loc :=
  x ← load_vec v;
  alloc (Vec Float64 (map (fun c => c / total) x)).

(** [np.full(n, x)]. *)
Definition full (n : nat) (x : Qc) : M loc :=
  alloc (Vec Float64 (np_full n x)).

(** [x.shape[0]]. *)
Definition shape0 (x : loc) : M nat :=
  a ← load x;
  match a with
  | Vec _ v => mret (length v)
  | Mat _ M => mret (length M)
  | Mask _ => stuck
  end.

(** [x - y], [np.abs(x)] and [np.max(x)] on 1-D arrays. *)
Definition subtract (x y : loc) : M loc :=
  a ← load_vec x;
  b ← load_vec y;
  d ← lift (broadcast_sub a b);
  alloc (Vec Float64 d).

Definition absolute (x : loc) : M loc :=
  a ← load_vec x;
  alloc (Vec Float64 (map Qcabs a)).

Definition maximum (x : loc) : M Qc :=
  a ← load_vec x; lift (np_max a).

Definition e_step (transcript_abundance_vector assignment_matrix : loc)
    : M loc :=
  A ← asarray_float assignment_matrix;
  pi ← asarray_float transcript_abundance_vector;
  weighted ← mul_column A pi;
  col_sums ← sum_axis0_keepdims weighted;
  out ← zeros_like weighted;
  mask ← not_equal_zero col_sums;
  posterior ← divide_where weighted col_sums out mask;
  mret posterior.

Definition m_step (posterior assignment_matrix : loc) : M loc :=
  p ← asarray_float posterior;
  expected_counts ← sum_rows p;
  total ← sum_all expected_counts;
  if Qcltb 0 total then
    divide_scalar expected_counts total
  else
    T ← shape0 expected_counts;
    u ← lift (one_over T);
    full T u.

Inductive loop_exit : Type :=
  | Converged (alpha : loc) (n_iterations : Z)
  | Exhausted (alpha : loc).

Definition converged (updated alpha : loc) (tol : Qc) : M bool :=
  d ← subtract updated alpha;
  a ← absolute d;
  m ← maximum a;
  mret (Qcltb m tol).

Fixpoint em_loop (assignment_matrix : loc) (tol : Qc)
    (remaining : nat) (iteration : Z) (alpha : loc) : M loop_exit :=
  match remaining with
  | O => mret (Exhausted alpha)
  | S remaining' =>
      posterior ← e_step alpha assignment_matrix;
      updated ← m_step posterior assignment_matrix;
      c ← converged updated alpha tol;
      if (c : bool) then mret (Converged updated (iteration + 1))
      else em_loop assignment_matrix tol remaining' (iteration + 1) updated
  end.

Definition initialize (assignment_matrix : loc)
    (initial_abundance : option loc) : M loc :=
  match initial_abundance with
  | None =>
      n_transcripts ← shape0 assignment_matrix;
      u ← lift (one_over n_transcripts);
      full n_transcripts u
  | Some x =>
      a ← asarray_float x;
      copy a
  end.

Definition run_em_algorithm (assignment_matrix : loc)
    (initial_abundance : option loc) (tol : Qc) (max_iters : Z)
    : M (loc * Z) :=
  alpha ← initialize assignment_matrix initial_abundance;
  ex ← em_loop assignment_matrix tol (Z.to_nat max_iters) 0 alpha;
  match ex with
  | Converged alpha' n => mret (alpha', n)
  | Exhausted alpha' =>
      _ ← print (warning max_iters);
      mret (alpha', max_iters)
  end.

End Heap.

(** ** Predicates on store-level computations *)

Section store_predicates.
Import Heap.

(** Every array of [w0] is still there, unchanged, in [w]. *)
Definition ext (w0 w : world) : Prop := heap w0 ⊆ heap w.

(** [l] is an array object that did not exist in [w0]. *)
Definition fresh_in (w0 : world) (l : loc) : Prop := heap w0 !! l = None.

(** Run from any world that extends [w0], the computation [m] leaves
    the arrays of [w0] as they are, and a value it returns has [Q]. *)
Definition frames {A} (w0 : world) (m : M A) (Q : A -> Prop) : Prop :=
  forall w, ext w0 w ->
    ext w0 (m w).2 /\ forall a, (m w).1 = Val a -> Q a.

Definition exit_loc (ex : loop_exit) : loc :=
  match ex with
  | Converged alpha _ => alpha
  | Exhausted alpha => alpha
  end.

(** [m] returns a value with [Q] in a world that extends [w] and has
    the same standard output; [m] raises [e] likewise. *)
Definition returns {A} (m : M A) (w : world) (Q : A -> world -> Prop) : Prop :=
  exists a w', m w = (Val a, w') /\ ext w w' /\ stdout w' = stdout w /\ Q a w'.

Definition raises {A} (m : M A) (w : world) (e : exn) : Prop :=
  exists w', m w = (Exn e, w') /\ ext w w' /\ stdout w' = stdout w.

End store_predicates.

(** The outcome of [m] in world [w] is the outcome [r] of the
    value-level computation, up to [rel] between the values. *)
Definition refines {A B} (m : Heap.M A) (w : Heap.world) (r : result B)
    (rel : B -> A -> Heap.world -> Prop) : Prop :=
  match r with
  | Ok b => returns m w (rel b)
  | Raise e => raises m w e
  end.

Definition exit_rel (ex : loop_exit) (ex' : Heap.loop_exit)
    (w : Heap.world) : Prop :=
  match ex, ex' with
  | Converged v n, Heap.Converged l n' =>
      n' = n /\ Heap.heap w !! l = Some (Heap.Vec Heap.Float64 v)
  | Exhausted v, Heap.Exhausted l =>
      Heap.heap w !! l = Some (Heap.Vec Heap.Float64 v)
  | _, _ => False
  end.

(** The start vector supplied by reference holds [init]. *)
Definition init_rel (w : Heap.world) (init : option vector)
    (linit : option Heap.loc) : Prop :=
  match init, linit with
  | None, None => True
  | Some v, Some l => exists d, Heap.heap w !! l = Some (Heap.Vec d v)
  | _, _ => False
  end.

(** A value-level result and standard output against a store-level
    outcome and world. *)
Definition run_rel (r : result (vector * Z) * list string)
    (o : Heap.outcome (Heap.loc * Z) * Heap.world) : Prop :=
  match r with
  | (Ok (v, n), out) =>
      exists l, o.1 = Heap.Val (l, n) /\
        Heap.heap o.2 !! l = Some (Heap.Vec Heap.Float64 v) /\
        Heap.stdout o.2 = out
  | (Raise e, out) => o.1 = Heap.Exn e /\ Heap.stdout o.2 = out
  end.

(** Two calls, started in worlds [w1] and [w2], end alike: they print
    the same text, and either return the same iteration count and
    arrays with the same contents or raise the same exception. *)
Definition same_outcome (w1 : Heap.world)
    (o1 : Heap.outcome (Heap.loc * Z) * Heap.world) (w2 : Heap.world)
    (o2 : Heap.outcome (Heap.loc * Z) * Heap.world) : Prop :=
  (exists t, Heap.stdout o1.2 = Heap.stdout w1 ++ t /\
             Heap.stdout o2.2 = Heap.stdout w2 ++ t) /\
  match o1.1, o2.1 with
  | Heap.Val (l1, n1), Heap.Val (l2, n2) =>
      n1 = n2 /\
      exists v, Heap.heap o1.2 !! l1 = Some (Heap.Vec Heap.Float64 v) /\
                Heap.heap o2.2 !! l2 = Some (Heap.Vec Heap.Float64 v)
  | Heap.Exn e1, Heap.Exn e2 => e1 = e2
  | _, _ => False
  end.

(** Two worlds holding the matrix of [test_edge_cases]: as an integer
    array in an otherwise empty world, and as a float array next to
    another array after some output. *)
Definition world_a : Heap.world :=
  Heap.World {[ 0%nat := Heap.Mat Heap.Int64 equal_matrix ]} [].
Definition world_b : Heap.world :=
  Heap.World {[ 3%nat := Heap.Mat Heap.Float64 equal_matrix;
                4%nat := Heap.Vec Heap.Float64 test_abundance ]}
    ["Running EM algorithm..."].

(** * The two steps on float64 numbers

    [e_step] and [m_step] once more, on binary64 numbers with the
    operations of IEEE 754 (round to nearest, ties to even), which are
    the operations numpy applies to [float64] arrays.  What the exact
    embedding above cannot show is visible here: a product or a sum
    beyond the largest float64 is [inf], [inf / inf] is [nan], the mask
    [col_sums != 0] is true at [nan] and the test [total > 0] is false
    at [nan].

    Sums.  [M.sum(axis=0)] adds the rows in order.  A sum along a row or
    of a 1-D array adds fewer than 8 terms from left to right; numpy adds
    longer ones in blocks, which the left-to-right sums below do not
    follow, so that for rows of 8 entries or more they can differ from
    numpy in the last digits. *)

Module F64.
Import PrimFloat.

Abbreviation vector := (list float).
Abbreviation matrix := (list (list float)).

Definition ncols (M : matrix) : nat :=
  match M with
  | [] => 0%nat
  | row :: _ => length row
  end.

Definition col (r : nat) (M : matrix) : vector :=
  map (fun row => nth r row 0%float) M.

(** [v.sum()] of a 1-D array. *)
Definition vsum (v : vector) : float :=
  match v with
  | [] => 0%float
  | x :: v' => foldl add x v'
  end.

(** [M.sum(axis=1)]. *)
Definition sum_axis1 (M : matrix) : vector := map vsum M.

(** [M.sum(axis=0, keepdims=True)]: the rows added in order, entry by
    entry. *)
Definition sum_axis0 (R : nat) (M : matrix) : vector :=
  match M with
  | [] => replicate R 0%float
  | row :: M' => foldl (zip_with add) row M'
  end.

(** [A * pi[:, None]]. *)
Definition broadcast_mul (A : matrix) (pi : vector) : result matrix :=
  let T := length A in
  let L := length pi in
  if (T =? L)%nat then
    Ok (zip_with (fun row p => map (fun a => mul a p) row) A pi)
  else if (L =? 1)%nat then
    Ok (map (fun row => map (fun a => mul a (hd 0%float pi)) row) A)
  else if (T =? 1)%nat then
    Ok (map (fun p => map (fun a => mul a p) (hd [] A)) pi)
  else Raise BroadcastError.

(** [np.divide(W, s, out=np.zeros_like(W), where=s != 0)]; the mask is
    true at [nan]. *)
Definition safe_divide (W : matrix) (s : vector) : matrix :=
  map (fun row =>
         zip_with (fun w c => if eqb c 0 then 0%float else div w c) row s) W.

(** A Python int as a float; exact below [2^53]. *)
Fixpoint of_pos (p : positive) : float :=
  match p with
  | xH => 1%float
  | xO p' => mul 2 (of_pos p')
  | xI p' => add (mul 2 (of_pos p')) 1
  end.

(** [1.0 / n] for a Python int [n]. *)
Definition one_over (n : nat) : result float :=
  match n with
  | O => Raise ZeroDivisionError
  | S _ => Ok (div 1 (of_pos (Pos.of_nat n)))
  end.

Definition e_step (transcript_abundance_vector : vector)
    (assignment_matrix : matrix) : result matrix :=
  let A := assignment_matrix in
  let pi := transcript_abundance_vector in
  weighted ← broadcast_mul A pi;
  let col_sums := sum_axis0 (ncols weighted) weighted in
  let posterior := safe_divide weighted col_sums in
  Ok posterior.

Definition m_step (posterior : matrix) (assignment_matrix : matrix)
    : result vector :=
  let expected_counts := sum_axis1 posterior in
  let total := vsum expected_counts in
  if ltb 0 total then
    Ok (map (fun c => div c total) expected_counts)
  else
    let T := length expected_counts in
    u ← one_over T;
    Ok (replicate T u).

(** The two readings of the guarantee on a column of the posterior:
    its sum is 1 up to [tol], every entry is 0. *)
Definition sums_to_one (tol : float) (c : vector) : bool :=
  leb (abs (sub (vsum c) 1)) tol.

Definition all_zero (c : vector) : bool := forallb (fun x => eqb x 0) c.

(** The arrays of [test_kallisto_em.py]. *)
Definition test_assignment_matrix : matrix := [[1; 0]; [1; 1]]%float.
Definition test_abundance : vector := [0.5; 0.5]%float.
Definition test_posterior : matrix := [[0.5; 0]; [0.5; 1]]%float.

(** Two transcripts of abundance 2 and one read of weight [2^1023] for
    each: every entry is finite and non-negative, the weighted total of
    the column is not. *)
Definition heavy_abundance : vector := [2; 2]%float.
Definition heavy_matrix : matrix := [[0x1p1023]; [0x1p1023]]%float.

Definition quarters : vector := [0.25; 0.75]%float.
Definition zeros : vector := [0; 0]%float.

End F64.

(** * Properties *)

(** ** The repository's tests and demo, evaluated *)

(** [test_e_step_basic]: the posterior has shape [(2, 2)]. *)
Example test_e_step_basic :
  e_step test_abundance test_assignment_matrix = Ok [[1 / 2; 0]; [1 / 2; 1]].
Proof. by_compute. Qed.

(** [test_m_step_basic]. *)
Example test_m_step_basic :
  m_step test_posterior test_assignment_matrix =
  Ok [Q2Qc (1 # 4); Q2Qc (3 # 4)].
Proof. by_compute. Qed.

(** [test_edge_cases]: one isoform, and two isoforms with equal rows. *)
Example test_edge_cases :
  run_em_algorithm single_isoform None default_tol default_max_iters [] =
    (Ok ([1], 1%Z), []) /\
  run_em_algorithm equal_matrix None default_tol default_max_iters [] =
    (Ok ([1 / 2; 1 / 2], 1%Z), []).
Proof. split; by_compute. Qed.

(** [demo_step_by_step]: one iteration from [[0.6, 0.4]]. *)
Example demo_step_by_step :
  e_step demo_alpha test_assignment_matrix =
    Ok [[Q2Qc (6 # 10); 0]; [Q2Qc (4 # 10); 1]] /\
  m_step [[Q2Qc (6 # 10); 0]; [Q2Qc (4 # 10); 1]] test_assignment_matrix =
    Ok [Q2Qc (3 # 10); Q2Qc (7 # 10)].
Proof. split; by_compute. Qed.

(** The example matrix with a budget of one iteration: the estimate of
    the first pass, and the warning. *)
Example example_data_one_iteration :
  run_em_algorithm create_example_data None default_tol 1 [] =
    (Ok ([Q2Qc (7 # 15); Q2Qc (4 # 15); Q2Qc (4 # 15)], 1%Z),
     ["Warning: EM algorithm did not converge after 1 iterations"]).
Proof. by_compute. Qed.

(** The store-level [e_step] on the arrays of [world_b]: it returns a
    new array holding the posterior, and the two argument arrays are
    where they were. *)
Example heap_e_step_world_b :
  let o := Heap.e_step 4%nat 3%nat world_b in
  o.1 = Heap.Val 7%nat /\
  Heap.heap o.2 !! 7%nat =
    Some (Heap.Mat Heap.Float64 [[1 / 2; 1 / 2]; [1 / 2; 1 / 2]]) /\
  Heap.heap o.2 !! 3%nat = Heap.heap world_b !! 3%nat /\
  Heap.heap o.2 !! 4%nat = Heap.heap world_b !! 4%nat.
Proof. repeat split; by_compute. Qed.

(** [test_e_step_basic] and [test_m_step_basic] on float64. *)
Example f64_test_e_step_basic :
  F64.e_step F64.test_abundance F64.test_assignment_matrix =
  Ok F64.test_posterior.
Proof. reflexivity. Qed.

Example f64_test_m_step_basic :
  F64.m_step F64.test_posterior F64.test_assignment_matrix = Ok F64.quarters.
Proof. reflexivity. Qed.

(** Outside the probabilities: on the rows [[2^1023]] and [[2^1023]]
    the grand total is [inf], and both counts divided by it are 0. *)
Example f64_m_step_overflow :
  F64.m_step F64.heavy_matrix F64.heavy_matrix = Ok F64.zeros.
Proof. reflexivity. Qed.

(** ** Arithmetic of the array primitives *)

Lemma Qcltb_true x y : Qcltb x y = true <-> x < y.
Proof. unfold Qcltb. apply bool_decide_eq_true. Qed.

Lemma Qcltb_false x y : Qcltb x y = false <-> y <= x.
Proof.
  unfold Qcltb. rewrite bool_decide_eq_false. symmetry. apply Qcle_ngt.
Qed.

Lemma Qceqb_true x y : Qceqb x y = true <-> x = y.
Proof. unfold Qceqb. apply bool_decide_eq_true. Qed.

Lemma Qceqb_false x y : Qceqb x y = false <-> x <> y.
Proof. unfold Qceqb. apply bool_decide_eq_false. Qed.

Lemma Qc_of_nat_pos n : 0 < Qc_of_Z (Z.of_nat (S n)).
Proof. rewrite <- Z2Qc_inj_0. apply (proj1 (Z2Qc_inj_lt 0 _)). lia. Qed.

Lemma Qcdiv_nonneg x y : 0 <= x -> 0 < y -> 0 <= x / y.
Proof.
  intros Hx Hy. unfold Qcdiv. apply Qcmult_nonneg_nonneg; [done|].
  apply Qclt_le_weak. by apply Qcinv_pos.
Qed.

Lemma vsum_cons x v : vsum (x :: v) = x + vsum v.
Proof. reflexivity. Qed.

Lemma vsum_nonneg v : nonneg v -> 0 <= vsum v.
Proof.
  induction 1 as [|x v Hx _ IH]; [done|].
  rewrite vsum_cons. by apply Qcplus_nonneg_nonneg.
Qed.

Lemma vsum_map_div v t : vsum (map (fun c => c / t) v) = vsum v / t.
Proof.
  induction v as [|x v IH]; simpl.
  - unfold Qcdiv. by rewrite Qcmult_0_l.
  - fold (vsum (map (fun c => c / t) v)). fold (vsum v). rewrite IH.
    unfold Qcdiv. ring.
Qed.

Lemma vsum_replicate n x : vsum (replicate n x) = Qc_of_Z (Z.of_nat n) * x.
Proof.
  induction n as [|n IH].
  - change (0 = Qc_of_Z 0 * x). rewrite Z2Qc_inj_0. ring.
  - rewrite Nat2Z.inj_succ, <- Z.add_1_r, Z2Qc_inj_add, Z2Qc_inj_1.
    change (x + vsum (replicate n x) = (Qc_of_Z (Z.of_nat n) + 1) * x).
    rewrite IH. ring.
Qed.

(** ** Shapes and columns *)

Lemma rect_ncols R (M : matrix) : rect R M -> M <> [] -> ncols M = R.
Proof. destruct 1; [done|]. by intros _. Qed.

Lemma length_sum_axis0 R (M : matrix) :
  rect R M -> length (sum_axis0 R M) = R.
Proof.
  induction 1 as [|row M Hrow _ IH]; simpl.
  - apply length_replicate.
  - rewrite length_zip_with, IH, Hrow. lia.
Qed.

Lemma nth_zip_with_Qc (f : Qc -> Qc -> Qc) (u v : vector) r :
  (r < length u)%nat -> (r < length v)%nat ->
  nth r (zip_with f u v) 0 = f (nth r u 0) (nth r v 0).
Proof.
  revert v r. induction u as [|a u IH]; intros [|b v] [|r]; simpl; try lia.
  - done.
  - intros. apply IH; lia.
Qed.

Lemma nth_sum_axis0 R (M : matrix) r :
  rect R M -> (r < R)%nat -> nth r (sum_axis0 R M) 0 = vsum (col r M).
Proof.
  intros HM Hr. induction HM as [|row M Hrow HM IH]; simpl.
  - rewrite nth_lookup, lookup_replicate_2; done.
  - rewrite nth_zip_with_Qc, IH; [done|lia|].
    rewrite length_sum_axis0; done.
Qed.

Lemma col_safe_divide R (W : matrix) (s : vector) r :
  rect R W -> length s = R -> (r < R)%nat ->
  col r (safe_divide W s) =
  map (fun w => if Qceqb (nth r s 0) 0 then 0 else w / nth r s 0) (col r W).
Proof.
  intros HW Hs Hr. unfold col, safe_divide. rewrite !map_map.
  apply map_ext_Forall. eapply Forall_impl; [exact HW|].
  intros row Hrow. simpl in *.
  rewrite (nth_zip_with_Qc (fun w c => if Qceqb c 0 then 0 else w / c));
    [done|lia|lia].
Qed.

Lemma rect_safe_divide R (W : matrix) (s : vector) :
  rect R W -> length s = R -> rect R (safe_divide W s).
Proof.
  intros HW Hs. unfold rect, safe_divide. rewrite Forall_map.
  eapply Forall_impl; [exact HW|]. intros row Hrow. simpl in *.
  rewrite length_zip_with. lia.
Qed.

Lemma length_safe_divide (W : matrix) s : length (safe_divide W s) = length W.
Proof. unfold safe_divide. apply length_map. Qed.

(** With matching row counts [A * pi[:, None]] scales row [t] by [pi[t]]. *)
Lemma broadcast_mul_same (A : matrix) (pi : vector) :
  length pi = length A ->
  broadcast_mul A pi = Ok (zip_with (fun row p => map (fun a => a * p) row) A pi).
Proof.
  intros H. unfold broadcast_mul. by rewrite H, Nat.eqb_refl.
Qed.

Lemma rect_scale_rows R (A : matrix) (pi : vector) :
  rect R A -> rect R (zip_with (fun row p => map (fun a => a * p) row) A pi).
Proof.
  intros HA. revert pi. induction HA as [|row A Hrow _ IH]; intros [|p pi];
    simpl; try constructor.
  - by rewrite length_map.
  - apply IH.
Qed.

Lemma col_scale_rows R (A : matrix) (pi : vector) r :
  rect R A -> (r < R)%nat ->
  col r (zip_with (fun row p => map (fun a => a * p) row) A pi) =
  zip_with Qcmult (col r A) pi.
Proof.
  intros HA Hr. revert pi. induction HA as [|row A Hrow _ IH]; intros [|p pi];
    simpl; try done.
  f_equal; [|apply IH].
  rewrite !nth_lookup, list_lookup_fmap.
  destruct (row !! r) as [a|] eqn:E; [done|].
  apply lookup_ge_None in E. lia.
Qed.

(** ** The expectation step *)

(** What [e_step] returns on arrays of matching shapes. *)
Lemma e_step_same (pi : vector) (A : matrix) R :
  length pi = length A -> rect R A ->
  let W := zip_with (fun row p => map (fun a => a * p) row) A pi in
  e_step pi A = Ok (safe_divide W (sum_axis0 (ncols W) W))
  /\ length W = length A /\ rect R W /\ (W <> [] -> ncols W = R).
Proof.
  intros Hlen HA W. unfold e_step. rewrite broadcast_mul_same by done.
  assert (HW : rect R W) by by apply rect_scale_rows.
  repeat split; [|done|by apply rect_ncols].
  unfold W. rewrite length_zip_with. lia.
Qed.

(** C2 (amended). For a non-negative abundance vector [pi] of length
    [T] and a non-negative [T x R] assignment matrix [A] whose weighted
    column totals [sum_t A[t,r] * pi[t]] stay in the range of float64,
    [e_step pi A] returns a [T x R] matrix [P] without raising, and
    every column [r] of [P] either sums to 1 or is identically zero; a
    column whose weighted total is 0 is identically zero. *)
Theorem e_step_columns (pi : vector) (A : matrix) (R : nat) :
  length pi = length A -> rect R A ->
  nonneg pi -> nonneg2 A -> in_range pi A R ->
  exists P, e_step pi A = Ok P /\ length P = length A /\ rect R P /\
    forall r, (r < R)%nat ->
      (vsum (col r P) = 1 \/ Forall (fun x => x = 0) (col r P)) /\
      (vsum (zip_with Qcmult (col r A) pi) = 0 ->
       Forall (fun x => x = 0) (col r P)).
Proof.
  intros Hlen HA _ _ _.
  destruct (e_step_same pi A R Hlen HA) as (HP & HlenW & HW & Hnc).
  set (W := zip_with (fun row p => map (fun a => a * p) row) A pi) in *.
  eexists. split; [exact HP|].
  destruct (decide (W = [])) as [HW0|HW0].
  { rewrite HW0 in *. simpl in HlenW.
    destruct A; [|discriminate].
    split; [done|]. split; [constructor|].
    intros r Hr. split; [right|intros _]; constructor. }
  specialize (Hnc HW0). rewrite Hnc.
  assert (Hs : length (sum_axis0 R W) = R) by by apply length_sum_axis0.
  split; [by rewrite length_safe_divide|].
  split; [by apply rect_safe_divide|].
  intros r Hr.
  rewrite (col_safe_divide R) by done.
  rewrite (nth_sum_axis0 R) by done.
  assert (Htot : vsum (col r W) = vsum (zip_with Qcmult (col r A) pi)).
  { unfold W. by rewrite (col_scale_rows R). }
  rewrite <- Htot.
  destruct (Qceqb (vsum (col r W)) 0) eqn:Hb.
  - assert (Hz : Forall (fun x : Qc => x = 0) (map (fun _ : Qc => 0) (col r W))).
    { apply Forall_map. by apply Forall_true. }
    split; [by right|done].
  - apply Qceqb_false in Hb. split; [left|done].
    rewrite vsum_map_div. unfold Qcdiv. by apply Qcmult_inv_r.
Qed.

Lemma e_step_columns_witness :
  length test_abundance = length test_assignment_matrix /\
  rect 2 test_assignment_matrix /\
  nonneg test_abundance /\ nonneg2 test_assignment_matrix /\
  in_range test_abundance test_assignment_matrix 2 /\
  exists P, e_step test_abundance test_assignment_matrix = Ok P /\
    length P = length test_assignment_matrix /\ rect 2 P /\
    forall r, (r < 2)%nat ->
      (vsum (col r P) = 1 \/ Forall (fun x => x = 0) (col r P)) /\
      (vsum (zip_with Qcmult (col r test_assignment_matrix) test_abundance)
         = 0 ->
       Forall (fun x => x = 0) (col r P)).
Proof.
  assert (H1 : length test_abundance = length test_assignment_matrix)
    by reflexivity.
  assert (H2 : rect 2 test_assignment_matrix) by (repeat constructor).
  assert (H3 : nonneg test_abundance) by by_compute.
  assert (H4 : nonneg2 test_assignment_matrix) by by_compute.
  assert (H5 : in_range test_abundance test_assignment_matrix 2).
  { intros [|[|r]] Hr; [by_compute|by_compute|lia]. }
  exact (conj H1 (conj H2 (conj H3 (conj H4 (conj H5
    (e_step_columns _ _ 2 H1 H2 H3 H4 H5)))))).
Defined.

(** C2 as stated fails on float64.  The abundances [[2, 2]] and the
    one-column matrix [[[2^1023], [2^1023]]] are finite and
    non-negative; both products are [inf], so is the column sum, and
    both entries of the column are [inf / inf = nan]: the column is not
    zero, and its sum is not within any tolerance of 1, not even an
    infinite one. *)
Lemma e_step_overflow :
  exists P, F64.e_step F64.heavy_abundance F64.heavy_matrix = Ok P /\
    F64.col 0 P = [PrimFloat.nan; PrimFloat.nan] /\
    F64.all_zero (F64.col 0 P) = false /\
    F64.sums_to_one PrimFloat.infinity (F64.col 0 P) = false.
Proof.
  exists [[PrimFloat.nan]; [PrimFloat.nan]]. repeat split; reflexivity.
Qed.

(** ** The maximisation step *)

Lemma length_sum_axis1 (P : matrix) : length (sum_axis1 P) = length P.
Proof. unfold sum_axis1. apply length_map. Qed.

Lemma nonneg_sum_axis1 (P : matrix) : nonneg2 P -> nonneg (sum_axis1 P).
Proof.
  intros HP. unfold nonneg, sum_axis1. rewrite Forall_map.
  eapply Forall_impl; [exact HP|]. intros row. apply vsum_nonneg.
Qed.

Lemma one_over_S n : one_over (S n) = Ok (1 / Qc_of_Z (Z.of_nat (S n))).
Proof. reflexivity. Qed.

Lemma vsum_uniform n :
  vsum (np_full (S n) (1 / Qc_of_Z (Z.of_nat (S n)))) = 1.
Proof.
  unfold np_full. rewrite vsum_replicate.
  pose proof (Qc_of_nat_pos n) as Hpos. apply Qclt_not_eq in Hpos.
  field. congruence.
Qed.

Lemma nonneg_uniform n : nonneg (np_full (S n) (1 / Qc_of_Z (Z.of_nat (S n)))).
Proof.
  unfold nonneg, np_full. apply Forall_replicate.
  apply Qcdiv_nonneg; [done|apply Qc_of_nat_pos].
Qed.

(** The two branches of [m_step]. *)
Lemma m_step_normalise (P A : matrix) :
  0 < vsum (sum_axis1 P) ->
  m_step P A = Ok (map (fun c => c / vsum (sum_axis1 P)) (sum_axis1 P)).
Proof.
  intros Hpos. unfold m_step. apply Qcltb_true in Hpos. by rewrite Hpos.
Qed.

Lemma m_step_fallback (P A : matrix) :
  vsum (sum_axis1 P) <= 0 ->
  m_step P A = (u ← one_over (length P); Ok (np_full (length P) u)).
Proof.
  intros Hle. unfold m_step. apply Qcltb_false in Hle. rewrite Hle.
  by rewrite length_sum_axis1.
Qed.

(** Facts about [m_step] shared by the results below: on at least one
    row it returns a vector of the same length that sums to 1, which is
    non-negative when the posterior is. *)
Lemma m_step_spec (P A : matrix) :
  P <> [] ->
  exists v, m_step P A = Ok v /\ length v = length P /\ vsum v = 1 /\
    (nonneg2 P -> nonneg v).
Proof.
  intros HP.
  destruct (Qclt_le_dec 0 (vsum (sum_axis1 P))) as [Hpos|Hle].
  - eexists. split; [by apply m_step_normalise|].
    split; [by rewrite length_map, length_sum_axis1|].
    split.
    + rewrite vsum_map_div. unfold Qcdiv. apply Qcmult_inv_r.
      apply Qclt_not_eq in Hpos. congruence.
    + intros Hnn. apply nonneg_sum_axis1 in Hnn.
      unfold nonneg. rewrite Forall_map.
      eapply Forall_impl; [exact Hnn|]. intros c Hc. by apply Qcdiv_nonneg.
  - rewrite m_step_fallback by done.
    destruct P as [|row P]; [done|]. simpl length. rewrite one_over_S.
    eexists. split; [reflexivity|].
    split; [apply length_replicate|].
    split; [apply vsum_uniform|]. intros _. apply nonneg_uniform.
Qed.

(** C3. For a posterior [P] with at least one row, its entries being
    probabilities, [m_step] returns a non-negative vector of length [T]
    that sums to 1.  When the grand total of [P] is positive, entry [t]
    is the row sum of [P] at [t] divided by the total; when the grand
    total is 0 the result is the uniform vector with every entry
    [1/T]. *)
Theorem m_step_simplex (P A : matrix) :
  P <> [] -> Forall (Forall unit_interval) P ->
  let T := length P in
  let total := vsum (sum_axis1 P) in
  exists v, m_step P A = Ok v /\ length v = T /\ vsum v = 1 /\ nonneg v /\
    (0 < total -> v = map (fun c => c / total) (sum_axis1 P)) /\
    (total = 0 -> v = np_full T (1 / Qc_of_Z (Z.of_nat T))).
Proof.
  intros HP Hprob T total. subst T total.
  assert (Hnn0 : nonneg2 P).
  { eapply Forall_impl; [exact Hprob|]. intros row Hrow.
    eapply Forall_impl; [exact Hrow|]. by intros x [H0 _]. }
  destruct (m_step_spec P A HP) as (v & Hv & Hlen & Hsum & Hnn).
  exists v. repeat split; try done.
  - by apply Hnn.
  - intros Hpos. rewrite m_step_normalise in Hv by done. congruence.
  - intros H0. rewrite m_step_fallback in Hv by (by rewrite H0).
    destruct P as [|row P]; [done|]. simpl length in *.
    rewrite one_over_S in Hv. simpl in Hv. congruence.
Qed.

Lemma m_step_simplex_witness :
  test_posterior <> [] /\ Forall (Forall unit_interval) test_posterior /\
  exists v, m_step test_posterior test_assignment_matrix = Ok v /\
    length v = 2%nat /\ vsum v = 1 /\ nonneg v /\
    (0 < vsum (sum_axis1 test_posterior) ->
     v = map (fun c => c / vsum (sum_axis1 test_posterior))
           (sum_axis1 test_posterior)) /\
    (vsum (sum_axis1 test_posterior) = 0 ->
     v = np_full 2 (1 / Qc_of_Z (Z.of_nat 2))).
Proof.
  assert (H1 : test_posterior <> []) by discriminate.
  assert (H2 : Forall (Forall unit_interval) test_posterior).
  { repeat constructor; by_compute. }
  exact (conj H1 (conj H2
    (m_step_simplex test_posterior test_assignment_matrix H1 H2))).
Defined.

(** ** The iteration *)

Lemma em_loop_S A tol remaining iteration alpha :
  em_loop A tol (S remaining) iteration alpha =
  (posterior ← e_step alpha A;
   updated ← m_step posterior A;
   c ← converged updated alpha tol;
   if (c : bool) then Ok (Converged updated (iteration + 1))
   else em_loop A tol remaining (iteration + 1) updated).
Proof. reflexivity. Qed.

(** A property [Inv] of the current estimate that every pass of the
    body re-establishes, together with a property [Post] of every
    updated estimate, holds of the estimate the loop ends with; the
    loop does not raise. *)
Lemma em_loop_invariant (Inv Post : vector -> Prop) (A : matrix) (tol : Qc) :
  (forall alpha, Inv alpha ->
     exists updated c, em_iteration A tol alpha updated c /\
       Inv updated /\ Post updated) ->
  forall remaining iteration alpha, Inv alpha ->
  exists ex, em_loop A tol remaining iteration alpha = Ok ex /\
    Inv (exit_alpha ex) /\
    (remaining <> 0%nat -> Post (exit_alpha ex)).
Proof.
  intros Hbody remaining.
  induction remaining as [|remaining IH]; intros iteration alpha Halpha.
  - exists (Exhausted alpha). by repeat split.
  - destruct (Hbody alpha Halpha) as (updated & c & (P & HP & Hu & Hc) & Hinv & Hpost).
    rewrite em_loop_S, HP. simpl. rewrite Hu. simpl. rewrite Hc. simpl.
    destruct c.
    + exists (Converged updated (iteration + 1)). by repeat split.
    + destruct (IH (iteration + 1)%Z updated Hinv) as (ex & Hex & Hi & Hp).
      exists ex. repeat split; [done|done|]. intros _.
      destruct remaining as [|remaining'].
      * simpl in Hex. injection Hex as <-. exact Hpost.
      * by apply Hp.
Qed.

(** The convergence test returns on non-empty arrays of equal length. *)
Lemma converged_same_length (updated alpha : vector) tol :
  length updated = length alpha -> alpha <> [] ->
  exists c, converged updated alpha tol = Ok c.
Proof.
  intros Hlen Hne. unfold converged, broadcast_sub.
  rewrite Hlen, Nat.eqb_refl. simpl.
  destruct updated as [|u updated]; destruct alpha as [|a alpha]; try done.
  simpl. eauto.
Qed.

(** [e_step] returns on arrays with matching row counts. *)
Lemma e_step_length (pi : vector) (A : matrix) :
  length pi = length A ->
  exists P, e_step pi A = Ok P /\ length P = length A.
Proof.
  intros Hlen. unfold e_step. rewrite broadcast_mul_same by done.
  eexists. split; [reflexivity|].
  rewrite length_safe_divide, length_zip_with. lia.
Qed.

(** One pass of the body on a matrix with at least one row and an
    estimate of matching length. *)
Lemma em_iteration_total (A : matrix) tol (alpha : vector) :
  A <> [] -> length alpha = length A ->
  exists updated c, em_iteration A tol alpha updated c /\
    length updated = length A /\ vsum updated = 1.
Proof.
  intros HA Hlen.
  destruct (e_step_length alpha A Hlen) as (P & HP & HlenP).
  assert (HPne : P <> []) by (destruct P, A; done).
  destruct (m_step_spec P A HPne) as (u & Hu & Hlenu & Hsum & _).
  assert (Hane : alpha <> []) by (destruct alpha, A; done).
  destruct (converged_same_length u alpha tol) as (c & Hc);
    [congruence|done|].
  exists u, c. split; [by exists P|]. split; congruence.
Qed.

(** ** Non-negativity *)

Lemma Forall_zip_with_Qc (Pu Pv Pw : Qc -> Prop) (f : Qc -> Qc -> Qc)
    (u v : vector) :
  (forall a b, Pu a -> Pv b -> Pw (f a b)) ->
  Forall Pu u -> Forall Pv v -> Forall Pw (zip_with f u v).
Proof.
  intros Hf Hu. revert v.
  induction Hu as [|a u Ha _ IH]; intros v Hv; [constructor|].
  destruct Hv as [|b v Hb Hv]; simpl; constructor; auto.
Qed.

Lemma nonneg_sum_axis0 R (M : matrix) : nonneg2 M -> nonneg (sum_axis0 R M).
Proof.
  induction 1 as [|row M Hrow _ IH]; simpl.
  - by apply Forall_replicate.
  - eapply Forall_zip_with_Qc; [|exact Hrow|exact IH].
    intros a b. apply Qcplus_nonneg_nonneg.
Qed.

Lemma nonneg_safe_divide (W : matrix) (s : vector) :
  nonneg2 W -> nonneg s -> nonneg2 (safe_divide W s).
Proof.
  intros HW Hs. unfold nonneg2, safe_divide. rewrite Forall_map.
  eapply Forall_impl; [exact HW|]. intros row Hrow. simpl.
  eapply Forall_zip_with_Qc; [|exact Hrow|exact Hs].
  intros w c Hw Hc. simpl in *.
  destruct (Qceqb c 0) eqn:E; [done|].
  apply Qceqb_false in E. apply Qcdiv_nonneg; [done|].
  destruct (Qcle_lt_or_eq _ _ Hc); congruence.
Qed.

Lemma nonneg_scale_rows (A : matrix) (pi : vector) :
  nonneg2 A -> nonneg pi ->
  nonneg2 (zip_with (fun row p => map (fun a => a * p) row) A pi).
Proof.
  intros HA. revert pi.
  induction HA as [|row A Hrow _ IH]; intros pi Hpi; [constructor|].
  destruct Hpi as [|p pi Hp Hpi]; simpl; constructor; [|by apply IH].
  unfold nonneg. rewrite Forall_map.
  eapply Forall_impl; [exact Hrow|]. intros a Ha. simpl.
  by apply Qcmult_nonneg_nonneg.
Qed.

Lemma e_step_nonneg (pi : vector) (A : matrix) :
  length pi = length A -> nonneg2 A -> nonneg pi ->
  exists P, e_step pi A = Ok P /\ length P = length A /\ nonneg2 P.
Proof.
  intros Hlen HA Hpi. unfold e_step. rewrite broadcast_mul_same by done.
  eexists. split; [reflexivity|].
  split; [rewrite length_safe_divide, length_zip_with; lia|].
  assert (HW := nonneg_scale_rows A pi HA Hpi).
  apply nonneg_safe_divide; [done|]. by apply nonneg_sum_axis0.
Qed.

Lemma em_iteration_nonneg (A : matrix) tol (alpha : vector) :
  A <> [] -> nonneg2 A -> length alpha = length A -> nonneg alpha ->
  exists updated c, em_iteration A tol alpha updated c /\
    (length updated = length A /\ nonneg updated) /\ vsum updated = 1.
Proof.
  intros HA Hnn Hlen Hpi.
  destruct (e_step_nonneg alpha A Hlen Hnn Hpi) as (P & HP & HlenP & HnnP).
  assert (HPne : P <> []) by (destruct P, A; done).
  destruct (m_step_spec P A HPne) as (u & Hu & Hlenu & Hsum & Hnnu).
  assert (Hane : alpha <> []) by (destruct alpha, A; done).
  destruct (converged_same_length u alpha tol) as (c & Hc);
    [congruence|done|].
  exists u, c. split; [by exists P|].
  repeat split; [congruence|by apply Hnnu|done].
Qed.

(** The default start: uniform over the rows of the matrix. *)
Lemma initialize_default (A : matrix) :
  A <> [] ->
  initialize A None =
  Ok (np_full (length A) (1 / Qc_of_Z (Z.of_nat (length A)))).
Proof. destruct A; [done|]. reflexivity. Qed.

Lemma uniform_simplex (A : matrix) :
  A <> [] ->
  let u := np_full (length A) (1 / Qc_of_Z (Z.of_nat (length A))) in
  length u = length A /\ nonneg u /\ vsum u = 1.
Proof.
  intros HA. destruct A as [|row A]; [done|].
  change (length (row :: A)) with (S (length A)). intros u. subst u.
  split; [apply length_replicate|].
  split; [apply nonneg_uniform|apply vsum_uniform].
Qed.

(** How [run_em_algorithm] packages the outcome of the loop. *)
Lemma run_em_algorithm_loop A init tol max_iters out alpha ex :
  initialize A init = Ok alpha ->
  em_loop A tol (Z.to_nat max_iters) 0 alpha = Ok ex ->
  exists n out',
    run_em_algorithm A init tol max_iters out = (Ok (exit_alpha ex, n), out').
Proof.
  intros Hinit Hloop. unfold run_em_algorithm. rewrite Hinit, Hloop.
  destruct ex; simpl; eauto.
Qed.

(** C4. For an assignment matrix with at least one row and
    non-negative entries and an iteration budget of at least 1,
    [run_em_algorithm] with the default uniform start returns a vector
    whose entries are non-negative and sum to 1, whether the loop
    converged or used up its budget. *)
Theorem run_em_algorithm_simplex (A : matrix) (tol : Qc) (max_iters : Z)
    (out : list string) :
  A <> [] -> nonneg2 A -> (1 <= max_iters)%Z ->
  exists v n out',
    run_em_algorithm A None tol max_iters out = (Ok (v, n), out') /\
    length v = length A /\ nonneg v /\ vsum v = 1.
Proof.
  intros HA Hnn Hmax.
  destruct (uniform_simplex A HA) as (Hlen & Hu & _).
  destruct (em_loop_invariant
              (fun alpha => length alpha = length A /\ nonneg alpha)
              (fun alpha => vsum alpha = 1) A tol) with
    (remaining := Z.to_nat max_iters) (iteration := 0%Z)
    (alpha := np_full (length A) (1 / Qc_of_Z (Z.of_nat (length A))))
    as (ex & Hex & (Hl & Hn) & Hs).
  { intros alpha [Hl Hn]. by apply em_iteration_nonneg. }
  { done. }
  destruct (run_em_algorithm_loop A None tol max_iters out _ ex
              (initialize_default A HA) Hex) as (n & out' & Hrun).
  exists (exit_alpha ex), n, out'. repeat split; try done.
  apply Hs. lia.
Qed.

Lemma run_em_algorithm_simplex_witness :
  create_example_data <> [] /\ nonneg2 create_example_data /\ (1 <= 1)%Z /\
  exists v n out',
    run_em_algorithm create_example_data None default_tol 1 [] =
      (Ok (v, n), out') /\
    length v = length create_example_data /\ nonneg v /\ vsum v = 1.
Proof.
  assert (H1 : create_example_data <> []) by discriminate.
  assert (H2 : nonneg2 create_example_data) by by_compute.
  assert (H3 : (1 <= 1)%Z) by lia.
  exact (conj H1 (conj H2 (conj H3
    (run_em_algorithm_simplex create_example_data default_tol 1 [] H1 H2 H3)))).
Defined.

(** ** Fixed points *)

Lemma m_step_nonempty (P A : matrix) (v : vector) :
  m_step P A = Ok v -> v <> [].
Proof.
  intros Hv. destruct P as [|row P]; [discriminate|].
  destruct (m_step_spec (row :: P) A) as (v' & Hv' & Hlen & _); [done|].
  assert (v = v') by congruence. subst v'. by destruct v.
Qed.

Lemma foldl_Qcmax_zero (l : vector) :
  Forall (fun x => x = 0) l -> foldl Qcmax 0 l = 0.
Proof. induction 1 as [|x l -> _ IH]; [done|]. exact IH. Qed.

Lemma abs_sub_self (v : vector) :
  Forall (fun x => x = 0) (map Qcabs (zip_with Qcminus v v)).
Proof.
  induction v as [|a v IH]; simpl; [constructor|].
  constructor; [|exact IH].
  unfold Qcminus. rewrite Qcplus_opp_r. apply Qcabs_pos, Qcle_refl.
Qed.

(** The convergence test succeeds on an unchanged estimate. *)
Lemma converged_refl (v : vector) tol :
  v <> [] -> 0 < tol -> converged v v tol = Ok true.
Proof.
  intros Hne Htol. unfold converged, broadcast_sub.
  rewrite Nat.eqb_refl. simpl.
  pose proof (abs_sub_self v) as Hz.
  destruct (map Qcabs (zip_with Qcminus v v)) as [|d ds] eqn:E.
  { destruct v; [done|discriminate]. }
  simpl. apply Forall_cons in Hz as [-> Hz].
  rewrite foldl_Qcmax_zero by done.
  apply Qcltb_true in Htol. by rewrite Htol.
Qed.

(** A fixed point of the loop body ends the loop in its first pass. *)
Lemma fixed_point_step (A : matrix) (pi : vector) (tol : Qc)
    (max_iters : Z) (out : list string) :
  (exists P, e_step pi A = Ok P /\ m_step P A = Ok pi) ->
  0 < tol -> (1 <= max_iters)%Z ->
  run_em_algorithm A (Some pi) tol max_iters out = (Ok (pi, 1%Z), out).
Proof.
  intros (P & HP & Hpi) Htol Hmax.
  unfold run_em_algorithm. simpl initialize.
  destruct (Z.to_nat max_iters) as [|k] eqn:E; [lia|].
  rewrite em_loop_S, HP. simpl. rewrite Hpi. simpl.
  rewrite converged_refl; [done| |done].
  by eapply m_step_nonempty.
Qed.

(** C6. If [pi] is an exact fixed point of one EM iteration on [A]
    ([m_step (e_step pi A) A] returns [pi]), then for every positive
    tolerance and every budget of at least one iteration
    [run_em_algorithm] started from [pi] returns [(pi, 1)] and prints
    nothing. *)
Theorem fixed_point_one_iteration (A : matrix) (pi : vector) (tol : Qc)
    (max_iters : Z) (out : list string) :
  (exists P, e_step pi A = Ok P /\ m_step P A = Ok pi) ->
  0 < tol -> (1 <= max_iters)%Z ->
  run_em_algorithm A (Some pi) tol max_iters out = (Ok (pi, 1%Z), out).
Proof. apply fixed_point_step. Qed.

Lemma fixed_point_one_iteration_witness :
  (exists P, e_step test_abundance equal_matrix = Ok P /\
             m_step P equal_matrix = Ok test_abundance) /\
  0 < default_tol /\ (1 <= default_max_iters)%Z /\
  run_em_algorithm equal_matrix (Some test_abundance) default_tol
    default_max_iters [] = (Ok (test_abundance, 1%Z), []).
Proof.
  assert (H1 : exists P, e_step test_abundance equal_matrix = Ok P /\
                         m_step P equal_matrix = Ok test_abundance).
  { exists [[1 / 2; 1 / 2]; [1 / 2; 1 / 2]]. split; by_compute. }
  assert (H2 : 0 < default_tol) by by_compute.
  assert (H3 : (1 <= default_max_iters)%Z) by (unfold default_max_iters; lia).
  exact (conj H1 (conj H2 (conj H3
    (fixed_point_one_iteration equal_matrix test_abundance default_tol
       default_max_iters [] H1 H2 H3)))).
Defined.

(** ** The iteration budget *)

(** C7 (amended). For a matrix with at least two rows and a start that
    is absent or has one entry per row, [run_em_algorithm] with
    [max_iters = 1] does not raise: it runs the loop body once and
    returns the updated estimate with iteration count 1.  When the
    convergence test of that pass fails, non-convergence is signalled
    by the warning printed to standard output; when the test succeeds
    nothing is printed. *)
Theorem one_iteration_budget (A : matrix) (init : option vector) (tol : Qc)
    (out : list string) :
  (2 <= length A)%nat ->
  match init with Some v => length v = length A | None => True end ->
  exists alpha updated c,
    initialize A init = Ok alpha /\
    em_iteration A tol alpha updated c /\
    run_em_algorithm A init tol 1 out =
      (Ok (updated, 1%Z), if c then out else out ++ [warning 1]).
Proof.
  intros HT Hinit.
  assert (HA : A <> []) by (destruct A; simpl in *; [lia|done]).
  assert (Halpha : exists alpha,
            initialize A init = Ok alpha /\ length alpha = length A).
  { destruct init as [v|].
    - by exists v.
    - eexists. split; [by apply initialize_default|].
      by apply uniform_simplex. }
  destruct Halpha as (alpha & Halpha & Hlen).
  destruct (em_iteration_total A tol alpha HA Hlen)
    as (updated & c & Hit & _).
  exists alpha, updated, c. repeat split; try done.
  destruct Hit as (P & HP & Hu & Hc).
  unfold run_em_algorithm. rewrite Halpha.
  change (Z.to_nat 1) with 1%nat.
  rewrite em_loop_S, HP. simpl. rewrite Hu. simpl. rewrite Hc. simpl.
  by destruct c.
Qed.

Lemma one_iteration_budget_witness :
  (2 <= length create_example_data)%nat /\
  exists alpha updated c,
    initialize create_example_data None = Ok alpha /\
    em_iteration create_example_data default_tol alpha updated c /\
    run_em_algorithm create_example_data None default_tol 1 [] =
      (Ok (updated, 1%Z), if c then [] else [] ++ [warning 1]).
Proof.
  assert (H : (2 <= length create_example_data)%nat) by (simpl; lia).
  exact (conj H
    (one_iteration_budget create_example_data None default_tol [] H I)).
Defined.

(** C7 as stated fails: on the matrix of two identical rows the single
    pass from the uniform start already meets the tolerance, so the run
    returns after 1 iteration without any non-convergence signal. *)
Lemma one_iteration_may_converge :
  (2 <= length equal_matrix)%nat /\
  run_em_algorithm equal_matrix None default_tol 1 [] =
    (Ok ([1 / 2; 1 / 2], 1%Z), []).
Proof. split; [simpl; lia|by_compute]. Qed.

(** C9. With [max_iters = 0] the loop body is never entered:
    [run_em_algorithm] returns the start vector itself with iteration
    count 0 (and prints the warning).  A supplied start is returned
    as it is, whatever its entries, its sum or its length; with no
    start supplied the uniform vector is returned, for a matrix with
    at least one row. *)
Theorem zero_budget_returns_start (A : matrix) (tol : Qc) (out : list string) :
  (forall alpha iteration,
     em_loop A tol (Z.to_nat 0) iteration alpha = Ok (Exhausted alpha)) /\
  (forall v, run_em_algorithm A (Some v) tol 0 out =
             (Ok (v, 0%Z), out ++ [warning 0])) /\
  (A <> [] ->
   run_em_algorithm A None tol 0 out =
     (Ok (np_full (length A) (1 / Qc_of_Z (Z.of_nat (length A))), 0%Z),
      out ++ [warning 0])).
Proof.
  split; [done|]. split; [done|].
  intros HA. unfold run_em_algorithm.
  by rewrite initialize_default.
Qed.

Lemma zero_budget_returns_start_witness :
  equal_matrix <> [] /\
  run_em_algorithm equal_matrix None default_tol 0 [] =
    (Ok (np_full 2 (1 / Qc_of_Z 2), 0%Z), [] ++ [warning 0]) /\
  run_em_algorithm equal_matrix (Some [1 + 1; 1; 1]) default_tol 0 [] =
    (Ok ([1 + 1; 1; 1], 0%Z), [] ++ [warning 0]).
Proof.
  assert (H : equal_matrix <> []) by discriminate.
  destruct (zero_budget_returns_start equal_matrix default_tol [])
    as (_ & Hsome & Hnone).
  exact (conj H (conj (Hnone H) (Hsome [1 + 1; 1; 1]))).
Defined.

(** ** Transcripts with identical rows *)









(** ** Inputs outside the data model *)

Lemma broadcast_mul_mismatch (A : matrix) (pi : vector) :
  length pi <> length A -> length pi <> 1%nat -> length A <> 1%nat ->
  broadcast_mul A pi = Raise BroadcastError.
Proof.
  intros H1 H2 H3. unfold broadcast_mul.
  destruct (Nat.eqb_spec (length A) (length pi)); [congruence|].
  destruct (Nat.eqb_spec (length pi) 1); [done|].
  by destruct (Nat.eqb_spec (length A) 1).
Qed.

(** C1 (amended). [run_em_algorithm] has no validation step; what a
    malformed input does is decided by the first operation it reaches.
    - A matrix with zero rows and no start vector raises
      [ZeroDivisionError] while the uniform start is built, before the
      loop.
    - A start vector whose length differs from the row count, neither
      being 1, raises numpy's broadcasting error in the first E-step
      (budget of at least one iteration).
    - A matrix with zero rows and a supplied start of length 0 or 1
      raises [ZeroDivisionError] in the first M-step.
    - Negative entries are not detected: on any matrix with at least
      one row, with the start absent or of matching length, a result is
      returned. *)
Theorem no_input_validation (A : matrix) (init : option vector) (tol : Qc)
    (max_iters : Z) (out : list string) :
  (A = [] -> init = None ->
   run_em_algorithm A init tol max_iters out = (Raise ZeroDivisionError, out)) /\
  (forall v, init = Some v ->
   length v <> length A -> length v <> 1%nat -> length A <> 1%nat ->
   (1 <= max_iters)%Z ->
   run_em_algorithm A init tol max_iters out = (Raise BroadcastError, out)) /\
  (forall v, A = [] -> init = Some v -> (length v <= 1)%nat ->
   (1 <= max_iters)%Z ->
   run_em_algorithm A init tol max_iters out = (Raise ZeroDivisionError, out)) /\
  (A <> [] ->
   match init with Some v => length v = length A | None => True end ->
   exists v n out',
     run_em_algorithm A init tol max_iters out = (Ok (v, n), out') /\
     length v = length A).
Proof.
  repeat split.
  - by intros -> ->.
  - intros v -> H1 H2 H3 Hmax. unfold run_em_algorithm. simpl initialize.
    destruct (Z.to_nat max_iters) as [|k] eqn:E; [lia|].
    rewrite em_loop_S. unfold e_step.
    by rewrite broadcast_mul_mismatch.
  - intros v -> -> Hv Hmax. unfold run_em_algorithm. simpl initialize.
    destruct (Z.to_nat max_iters) as [|k] eqn:E; [lia|].
    rewrite em_loop_S.
    destruct v as [|x [|y v]]; [done|done|simpl in Hv; lia].
  - intros HA Hinit.
    assert (Halpha : exists alpha,
              initialize A init = Ok alpha /\ length alpha = length A).
    { destruct init as [v|].
      - by exists v.
      - eexists. split; [by apply initialize_default|].
        by apply uniform_simplex. }
    destruct Halpha as (alpha & Halpha & Hlen).
    destruct (em_loop_invariant
                (fun alpha => length alpha = length A) (fun _ => True) A tol)
      with (remaining := Z.to_nat max_iters) (iteration := 0%Z) (alpha := alpha)
      as (ex & Hex & Hl & _).
    { intros alpha' Hl'.
      destruct (em_iteration_total A tol alpha' HA Hl') as (u & c & Hit & Hlu & _).
      by exists u, c. }
    { done. }
    destruct (run_em_algorithm_loop A init tol max_iters out alpha ex
                Halpha Hex) as (n & out' & Hrun).
    by exists (exit_alpha ex), n, out'.
Qed.

Lemma no_input_validation_witness :
  run_em_algorithm [] None default_tol default_max_iters [] =
    (Raise ZeroDivisionError, []) /\
  run_em_algorithm equal_matrix (Some [1; 1; 1]) default_tol
    default_max_iters [] = (Raise BroadcastError, []) /\
  run_em_algorithm [] (Some []) default_tol default_max_iters [] =
    (Raise ZeroDivisionError, []) /\
  exists v n out',
    run_em_algorithm negative_matrix None default_tol default_max_iters [] =
      (Ok (v, n), out') /\
    length v = length negative_matrix.
Proof.
  assert (Hmax : (1 <= default_max_iters)%Z) by (unfold default_max_iters; lia).
  split; [|split; [|split]].
  - by apply (no_input_validation [] None default_tol default_max_iters []).
  - apply (no_input_validation equal_matrix (Some [1; 1; 1]) default_tol
             default_max_iters [] ) with (v := [1; 1; 1]);
      [reflexivity|simpl; lia|simpl; lia|simpl; lia|exact Hmax].
  - apply (no_input_validation [] (Some []) default_tol default_max_iters [])
      with (v := []); [reflexivity|reflexivity|simpl; lia|exact Hmax].
  - apply (no_input_validation negative_matrix None default_tol
             default_max_iters []); [discriminate|exact I].
Defined.

(** C1 as stated fails: a matrix with a negative entry is accepted and
    an estimate is returned, and so is a start vector of length 1 for
    a matrix of two rows (it is broadcast over the rows). *)
Lemma malformed_input_accepted :
  ~ nonneg2 negative_matrix /\
  run_em_algorithm negative_matrix None default_tol default_max_iters [] =
    (Ok ([1 / 2; 1 / 2], 1%Z), []) /\
  length [1 : Qc] <> length equal_matrix /\
  run_em_algorithm equal_matrix (Some [1]) default_tol default_max_iters [] =
    (Ok ([1 / 2; 1 / 2], 2%Z), []).
Proof. repeat split; by_compute. Qed.

(** ** What a call does to the arrays it is given *)

Section frame.
Import Heap.

Lemma frames_ret {A} w0 (a : A) (Q : A -> Prop) :
  Q a -> frames w0 (mret a) Q.
Proof. intros Ha w Hw. split; [done|]. intros a' [= <-]. done. Qed.

Lemma frames_bind {A B} w0 (m : M A) (k : A -> M B) Q Q' :
  frames w0 m Q -> (forall a, Q a -> frames w0 (k a) Q') ->
  frames w0 (m ≫= k) Q'.
Proof.
  intros Hm Hk w Hw. destruct (Hm w Hw) as [Hext HQ].
  unfold mbind, M_bind. destruct (m w) as [[a|e|] w1]; simpl in *.
  - apply (Hk a); [by apply HQ|done].
  - by split.
  - by split.
Qed.

Lemma frames_weaken {A} w0 (m : M A) (Q Q' : A -> Prop) :
  (forall a, Q a -> Q' a) -> frames w0 m Q -> frames w0 m Q'.
Proof.
  intros HQ Hm w Hw. destruct (Hm w Hw) as [Hext Ha]. split; [done|].
  intros a E. by apply HQ, Ha.
Qed.

Lemma frames_raise {A} w0 e (Q : A -> Prop) : frames w0 (raise e) Q.
Proof. intros w Hw. by split. Qed.

Lemma frames_stuck {A} w0 (Q : A -> Prop) : frames w0 stuck Q.
Proof. intros w Hw. by split. Qed.

Lemma frames_lift {A} w0 (r : result A) : frames w0 (lift r) (fun _ => True).
Proof. destruct r; [by apply frames_ret|apply frames_raise]. Qed.

Lemma frames_alloc w0 a : frames w0 (alloc a) (fresh_in w0).
Proof.
  intros w Hw. unfold alloc. simpl.
  assert (Hf : heap w !! fresh (dom (heap w)) = None)
    by apply not_elem_of_dom, is_fresh.
  split.
  - unfold ext in *. simpl. etrans; [exact Hw|]. by apply insert_subseteq.
  - intros l [= <-]. unfold fresh_in.
    by eapply lookup_weaken_None.
Qed.

Lemma frames_load w0 l : frames w0 (load l) (fun _ => True).
Proof. intros w Hw. unfold load. by destruct (heap w !! l). Qed.

(** Writing into an array that did not exist in [w0]. *)
Lemma frames_store w0 l a :
  fresh_in w0 l -> frames w0 (store l a) (fun _ => True).
Proof.
  intros Hl w Hw. split; [|done]. unfold ext in *. simpl.
  by apply insert_subseteq_r.
Qed.

Lemma frames_print w0 s : frames w0 (print s) (fun _ => True).
Proof. intros w Hw. by split. Qed.

Lemma frames_load_vec w0 l : frames w0 (load_vec l) (fun _ => True).
Proof.
  eapply frames_bind; [apply frames_load|]. intros [d v|d m|m] _;
    (by apply frames_ret) || apply frames_stuck.
Qed.

Lemma frames_load_mat w0 l : frames w0 (load_mat l) (fun _ => True).
Proof.
  eapply frames_bind; [apply frames_load|]. intros [d v|d m|m] _;
    (by apply frames_ret) || apply frames_stuck.
Qed.

(** [np.asarray] returns its argument or a new array. *)
Lemma frames_asarray_float w0 x :
  frames w0 (asarray_float x) (fun l => l = x \/ fresh_in w0 l).
Proof.
  eapply frames_bind; [apply frames_load|].
  intros [[] v|[] m|m] _;
    try (apply frames_ret; by left);
    try (eapply frames_weaken; [|apply frames_alloc]; intros; by right).
  apply frames_stuck.
Qed.

(** Operations that read their arguments and return a new array. *)
Ltac frames_reads :=
  repeat first
    [ apply frames_alloc
    | eapply frames_bind;
        [first [apply frames_load_mat | apply frames_load_vec
               | apply frames_load | apply frames_lift]|intros ? _] ].

Lemma frames_copy w0 x : frames w0 (copy x) (fresh_in w0).
Proof. unfold copy. frames_reads. Qed.

Lemma frames_mul_column w0 A pi : frames w0 (mul_column A pi) (fresh_in w0).
Proof. unfold mul_column. frames_reads. Qed.

Lemma frames_sum_axis0_keepdims w0 W :
  frames w0 (sum_axis0_keepdims W) (fresh_in w0).
Proof. unfold sum_axis0_keepdims. frames_reads. Qed.

Lemma frames_zeros_like w0 W : frames w0 (zeros_like W) (fresh_in w0).
Proof. unfold zeros_like. frames_reads. Qed.

Lemma frames_not_equal_zero w0 s : frames w0 (not_equal_zero s) (fresh_in w0).
Proof. unfold not_equal_zero. frames_reads. Qed.

Lemma frames_sum_rows w0 P : frames w0 (sum_rows P) (fresh_in w0).
Proof. unfold sum_rows. frames_reads. Qed.

Lemma frames_divide_scalar w0 v t : frames w0 (divide_scalar v t) (fresh_in w0).
Proof. unfold divide_scalar. frames_reads. Qed.

Lemma frames_full w0 n x : frames w0 (full n x) (fresh_in w0).
Proof. apply frames_alloc. Qed.

Lemma frames_subtract w0 x y : frames w0 (subtract x y) (fresh_in w0).
Proof. unfold subtract. frames_reads. Qed.

Lemma frames_absolute w0 x : frames w0 (absolute x) (fresh_in w0).
Proof. unfold absolute. frames_reads. Qed.

Lemma frames_sum_all w0 v : frames w0 (sum_all v) (fun _ => True).
Proof.
  eapply frames_bind; [apply frames_load_vec|]. intros. by apply frames_ret.
Qed.

Lemma frames_maximum w0 v : frames w0 (maximum v) (fun _ => True).
Proof.
  eapply frames_bind; [apply frames_load_vec|]. intros. apply frames_lift.
Qed.

Lemma frames_shape0 w0 x : frames w0 (shape0 x) (fun _ => True).
Proof.
  eapply frames_bind; [apply frames_load|]. intros [d v|d m|m] _;
    (by apply frames_ret) || apply frames_stuck.
Qed.

(** The one operation that writes: it writes into [out], which must
    not be an array of [w0], and returns [out]. *)
Lemma frames_divide_where w0 W s out mask :
  fresh_in w0 out -> frames w0 (divide_where W s out mask) (fresh_in w0).
Proof.
  intros Hout. unfold divide_where.
  eapply frames_bind; [apply frames_load_mat|intros w _].
  eapply frames_bind; [apply frames_load_mat|intros c _].
  eapply frames_bind; [apply frames_load|intros a _].
  eapply frames_bind; [apply frames_load_mat|intros o _].
  destruct a; try apply frames_stuck.
  eapply frames_bind; [by apply frames_store|intros _ _].
  by apply frames_ret.
Qed.

Lemma frames_e_step w0 pi A : frames w0 (e_step pi A) (fresh_in w0).
Proof.
  unfold e_step.
  eapply frames_bind; [apply frames_asarray_float|intros A' _].
  eapply frames_bind; [apply frames_asarray_float|intros pi' _].
  eapply frames_bind; [apply frames_mul_column|intros weighted _].
  eapply frames_bind; [apply frames_sum_axis0_keepdims|intros col_sums _].
  eapply frames_bind; [apply frames_zeros_like|intros out Hout].
  eapply frames_bind; [apply frames_not_equal_zero|intros mask _].
  eapply frames_bind; [by apply frames_divide_where|intros posterior HP].
  by apply frames_ret.
Qed.

Lemma frames_m_step w0 P A : frames w0 (m_step P A) (fresh_in w0).
Proof.
  unfold m_step.
  eapply frames_bind; [apply frames_asarray_float|intros p _].
  eapply frames_bind; [apply frames_sum_rows|intros counts _].
  eapply frames_bind; [apply frames_sum_all|intros total _].
  destruct (Qcltb 0 total); [apply frames_divide_scalar|].
  eapply frames_bind; [apply frames_shape0|intros T _].
  eapply frames_bind; [apply frames_lift|intros u _].
  apply frames_full.
Qed.

Lemma frames_converged w0 updated alpha tol :
  frames w0 (converged updated alpha tol) (fun _ => True).
Proof.
  unfold converged.
  eapply frames_bind; [apply frames_subtract|intros d _].
  eapply frames_bind; [apply frames_absolute|intros a _].
  eapply frames_bind; [apply frames_maximum|intros m _].
  by apply frames_ret.
Qed.

(** The loop ends with the estimate it started from (no iteration
    run) or with a new array. *)
Lemma frames_em_loop w0 A tol remaining iteration alpha :
  frames w0 (em_loop A tol remaining iteration alpha)
    (fun ex => exit_loc ex = alpha \/ fresh_in w0 (exit_loc ex)).
Proof.
  revert iteration alpha.
  induction remaining as [|remaining IH]; intros iteration alpha; simpl.
  - apply frames_ret. by left.
  - eapply frames_bind; [apply frames_e_step|intros posterior _].
    eapply frames_bind; [apply frames_m_step|intros updated Hu].
    eapply frames_bind; [apply frames_converged|intros [] _].
    + apply frames_ret. by right.
    + eapply frames_weaken; [|apply IH].
      intros ex [->|Hex]; by right.
Qed.

(** The start vector is always a new array: [np.full] or [.copy()]. *)
Lemma frames_initialize w0 A init : frames w0 (initialize A init) (fresh_in w0).
Proof.
  destruct init as [x|]; simpl.
  - eapply frames_bind; [apply frames_asarray_float|intros a _].
    apply frames_copy.
  - eapply frames_bind; [apply frames_shape0|intros n _].
    eapply frames_bind; [apply frames_lift|intros u _].
    apply frames_full.
Qed.

Lemma frames_run_em_algorithm w0 A init tol max_iters :
  frames w0 (run_em_algorithm A init tol max_iters)
    (fun r => fresh_in w0 r.1).
Proof.
  unfold run_em_algorithm.
  eapply frames_bind; [apply frames_initialize|intros alpha Halpha].
  eapply frames_bind; [apply frames_em_loop|intros ex Hex].
  assert (Hf : fresh_in w0 (exit_loc ex)) by (destruct Hex; congruence).
  destruct ex; simpl in *.
  - by apply frames_ret.
  - eapply frames_bind; [apply frames_print|intros _ _].
    by apply frames_ret.
Qed.

End frame.

(** C10. None of [e_step], [m_step] and [run_em_algorithm] changes an
    array that exists when it is called: whatever the arguments and
    however the call ends, every array of the world before the call is
    in the world after the call with the same contents, so the
    assignment matrix, the abundance or posterior passed in and a
    supplied start vector are unchanged.  The array each of them
    returns is a new object (for [run_em_algorithm]: not the supplied
    start vector, which is copied). *)
Theorem arguments_not_mutated (w : Heap.world) (x y : Heap.loc)
    (init : option Heap.loc) (tol : Qc) (max_iters : Z) :
  (Heap.heap w ⊆ Heap.heap (Heap.e_step x y w).2 /\
   match (Heap.e_step x y w).1 with
   | Heap.Val l => Heap.heap w !! l = None
   | _ => True
   end) /\
  (Heap.heap w ⊆ Heap.heap (Heap.m_step x y w).2 /\
   match (Heap.m_step x y w).1 with
   | Heap.Val l => Heap.heap w !! l = None
   | _ => True
   end) /\
  (Heap.heap w ⊆ Heap.heap (Heap.run_em_algorithm y init tol max_iters w).2 /\
   match (Heap.run_em_algorithm y init tol max_iters w).1 with
   | Heap.Val (l, _) => Heap.heap w !! l = None
   | _ => True
   end).
Proof.
  assert (Hw : ext w w) by (unfold ext; reflexivity).
  split; [|split].
  - destruct (frames_e_step w x y w Hw) as [Hext Hnew]. split; [done|].
    destruct (Heap.e_step x y w).1; [by apply Hnew|done|done].
  - destruct (frames_m_step w x y w Hw) as [Hext Hnew]. split; [done|].
    destruct (Heap.m_step x y w).1; [by apply Hnew|done|done].
  - destruct (frames_run_em_algorithm w y init tol max_iters w Hw)
      as [Hext Hnew]. split; [done|].
    destruct (Heap.run_em_algorithm y init tol max_iters w).1 as [[l n]| |];
      [|done|done].
    by apply (Hnew (l, n)).
Qed.

(** ** The store-level functions compute what the value-level ones do *)

Section refinement.
Import Heap.

Lemma ext_refl w : ext w w.
Proof. unfold ext. reflexivity. Qed.

Lemma returns_ret {A} (a : A) w (Q : A -> world -> Prop) :
  Q a w -> returns (mret a) w Q.
Proof. intros HQ. exists a, w. auto using ext_refl. Qed.

Lemma returns_bind {A B} (m : M A) (k : A -> M B) w Q Q' :
  returns m w Q ->
  (forall a w', ext w w' -> Q a w' -> returns (k a) w' Q') ->
  returns (m ≫= k) w Q'.
Proof.
  intros (a & w1 & Hm & Hext & Hout & HQ) Hk.
  destruct (Hk a w1 Hext HQ) as (b & w2 & Hka & Hext2 & Hout2 & HQ').
  exists b, w2. unfold mbind, M_bind. rewrite Hm.
  repeat split; [done| |congruence|done].
  unfold ext in *. by etrans.
Qed.

Lemma raises_bind {A B} (m : M A) (k : A -> M B) w Q e :
  returns m w Q ->
  (forall a w', ext w w' -> Q a w' -> raises (k a) w' e) ->
  raises (m ≫= k) w e.
Proof.
  intros (a & w1 & Hm & Hext & Hout & HQ) Hk.
  destruct (Hk a w1 Hext HQ) as (w2 & Hka & Hext2 & Hout2).
  exists w2. unfold mbind, M_bind. rewrite Hm.
  repeat split; [done| |congruence].
  unfold ext in *. by etrans.
Qed.

Lemma raises_first {A B} (m : M A) (k : A -> M B) w e :
  raises m w e -> raises (m ≫= k) w e.
Proof.
  intros (w1 & Hm & Hext & Hout). exists w1.
  unfold mbind, M_bind. by rewrite Hm.
Qed.

Lemma returns_weaken {A} (m : M A) w (Q Q' : A -> world -> Prop) :
  (forall a w', ext w w' -> Q a w' -> Q' a w') -> returns m w Q -> returns m w Q'.
Proof.
  intros HQ (a & w' & Hm & Hext & Hout & Ha). exists a, w'. auto.
Qed.

Lemma returns_alloc a w :
  returns (alloc a) w (fun l w' => heap w' !! l = Some a).
Proof.
  eexists _, _. split; [reflexivity|]. simpl.
  split; [|split; [done|apply lookup_insert_eq]].
  apply insert_subseteq, not_elem_of_dom, is_fresh.
Qed.

(** The same, recording that the array is new. *)
Lemma returns_alloc_fresh a w :
  returns (alloc a) w
    (fun l w' => heap w' !! l = Some a /\ heap w !! l = None).
Proof.
  eexists _, _. split; [reflexivity|]. simpl.
  assert (Hf : heap w !! fresh (dom (heap w)) = None)
    by apply not_elem_of_dom, is_fresh.
  split; [by apply insert_subseteq|].
  split; [done|]. split; [apply lookup_insert_eq|done].
Qed.

Lemma bind_val {A B} (m : M A) (k : A -> M B) w a w' :
  m w = (Val a, w') -> (m ≫= k) w = k a w'.
Proof. intros H. unfold mbind, M_bind. by rewrite H. Qed.

Lemma load_val l a w : heap w !! l = Some a -> load l w = (Val a, w).
Proof. intros H. unfold load. by rewrite H. Qed.

Lemma load_mat_val l d m w :
  heap w !! l = Some (Mat d m) -> load_mat l w = (Val m, w).
Proof.
  intros H. unfold load_mat. by rewrite (bind_val _ _ _ _ _ (load_val _ _ _ H)).
Qed.

Lemma returns_load l a w :
  heap w !! l = Some a -> returns (load l) w (fun a' w' => a' = a).
Proof.
  intros H. exists a, w. unfold load. rewrite H. auto using ext_refl.
Qed.

Lemma returns_load_vec l d v w :
  heap w !! l = Some (Vec d v) -> returns (load_vec l) w (fun v' w' => v' = v).
Proof.
  intros H. eapply returns_bind; [by apply returns_load|].
  intros ? w' _ ->. by apply returns_ret.
Qed.

Lemma returns_load_mat l d m w :
  heap w !! l = Some (Mat d m) -> returns (load_mat l) w (fun m' w' => m' = m).
Proof.
  intros H. eapply returns_bind; [by apply returns_load|].
  intros ? w' _ ->. by apply returns_ret.
Qed.

Lemma ext_lookup w w' l a :
  ext w w' -> heap w !! l = Some a -> heap w' !! l = Some a.
Proof. intros Hext H. by eapply lookup_weaken. Qed.

(** A read of an array known in an earlier world. *)
Ltac read_mat H :=
  eapply returns_bind;
  [eapply returns_load_mat; eauto using ext_lookup|intros ? ? ? ->].
Ltac read_vec H :=
  eapply returns_bind;
  [eapply returns_load_vec; eauto using ext_lookup|intros ? ? ? ->].

Lemma returns_asarray_float_vec x d v w :
  heap w !! x = Some (Vec d v) ->
  returns (asarray_float x) w (fun l w' => heap w' !! l = Some (Vec Float64 v)).
Proof.
  intros H. eapply returns_bind; [by apply returns_load|].
  intros ? w' Hext ->. destruct d.
  - apply returns_alloc.
  - apply returns_ret. by eapply ext_lookup.
Qed.

Lemma returns_asarray_float_mat x d m w :
  heap w !! x = Some (Mat d m) ->
  returns (asarray_float x) w (fun l w' => heap w' !! l = Some (Mat Float64 m)).
Proof.
  intros H. eapply returns_bind; [by apply returns_load|].
  intros ? w' Hext ->. destruct d.
  - apply returns_alloc.
  - apply returns_ret. by eapply ext_lookup.
Qed.

Lemma returns_copy x a w :
  heap w !! x = Some a ->
  returns (copy x) w (fun l w' => heap w' !! l = Some a).
Proof.
  intros H. eapply returns_bind; [by apply returns_load|].
  intros ? w' Hext ->. apply returns_alloc.
Qed.

Lemma returns_lift {A} (a : A) w : returns (lift (Ok a)) w (fun a' w' => a' = a).
Proof. by apply returns_ret. Qed.

Lemma raises_lift {A} e w : raises (lift (Raise e : result A)) w e.
Proof. exists w. auto using ext_refl. Qed.

Lemma returns_mul_column A pi dA a dp p W w :
  heap w !! A = Some (Mat dA a) -> heap w !! pi = Some (Vec dp p) ->
  broadcast_mul a p = Ok W ->
  returns (mul_column A pi) w (fun l w' => heap w' !! l = Some (Mat Float64 W)).
Proof.
  intros HA Hpi HW. unfold mul_column.
  read_mat HA. read_vec Hpi. rewrite HW.
  eapply returns_bind; [apply returns_lift|intros ? ? ? ->].
  apply returns_alloc.
Qed.

Lemma raises_mul_column A pi dA a dp p e w :
  heap w !! A = Some (Mat dA a) -> heap w !! pi = Some (Vec dp p) ->
  broadcast_mul a p = Raise e ->
  raises (mul_column A pi) w e.
Proof.
  intros HA Hpi HW. unfold mul_column.
  eapply raises_bind; [by eapply returns_load_mat|intros ? w1 Hext1 ->].
  eapply raises_bind;
    [eapply returns_load_vec; by eapply ext_lookup|intros ? w2 Hext2 ->].
  rewrite HW. apply raises_first, raises_lift.
Qed.

Lemma returns_sum_axis0_keepdims W d m w :
  heap w !! W = Some (Mat d m) ->
  returns (sum_axis0_keepdims W) w
    (fun l w' => heap w' !! l = Some (Mat Float64 [sum_axis0 (ncols m) m])).
Proof.
  intros HW. unfold sum_axis0_keepdims. read_mat HW. apply returns_alloc.
Qed.

Lemma returns_not_equal_zero s d c w :
  heap w !! s = Some (Mat d [c]) ->
  returns (not_equal_zero s) w
    (fun l w' =>
       heap w' !! l = Some (Mask (map (fun x => negb (Qceqb x 0)) c))).
Proof. intros Hs. unfold not_equal_zero. read_mat Hs. apply returns_alloc. Qed.

(** On a zero-filled [out] and the mask [s != 0] the masked division
    computes [safe_divide]. *)
Lemma masked_divide_row (wrow s : vector) :
  zip_with (fun (q : Qc * Qc) (b : bool * Qc) =>
              if b.1 then q.1 / q.2 else b.2)
    (zip wrow s)
    (zip (map (fun x => negb (Qceqb x 0)) s) (map (fun _ => 0) wrow)) =
  zip_with (fun w c => if Qceqb c 0 then 0 else w / c) wrow s.
Proof.
  revert s. induction wrow as [|x wrow IH]; intros [|c s]; simpl; try done.
  rewrite IH. by destruct (Qceqb c 0).
Qed.

Lemma masked_divide (W : matrix) (s : vector) :
  zip_with
    (fun wrow orow =>
       zip_with (fun (q : Qc * Qc) (b : bool * Qc) =>
                   if b.1 then q.1 / q.2 else b.2)
         (zip wrow s) (zip (map (fun x => negb (Qceqb x 0)) s) orow))
    W (map (map (fun _ => 0)) W) =
  safe_divide W s.
Proof.
  unfold safe_divide. induction W as [|wrow W IH]; simpl; [done|].
  by rewrite IH, masked_divide_row.
Qed.

Lemma returns_zeros_like_fresh W d m w :
  heap w !! W = Some (Mat d m) ->
  returns (zeros_like W) w
    (fun l w' =>
       heap w' !! l = Some (Mat Float64 (map (map (fun _ => 0)) m)) /\
       heap w !! l = None).
Proof.
  intros HW. unfold zeros_like. read_mat HW.
  eapply returns_weaken; [|apply returns_alloc_fresh].
  intros l wl _ [Hl Hf]. split; [done|]. by eapply lookup_weaken_None.
Qed.

(** What the writing operation does to the world. *)
Lemma divide_where_val W s out mask dW m ds c dout w :
  heap w !! W = Some (Mat dW m) -> heap w !! s = Some (Mat ds [c]) ->
  heap w !! out = Some (Mat dout (map (map (fun _ => 0)) m)) ->
  heap w !! mask = Some (Mask (map (fun x => negb (Qceqb x 0)) c)) ->
  divide_where W s out mask w =
  (Val out,
   World (<[out := Mat Float64 (safe_divide m c)]> (heap w)) (stdout w)).
Proof.
  intros HW Hs Hout Hmask. unfold divide_where.
  rewrite (bind_val _ _ _ _ _ (load_mat_val _ _ _ _ HW)).
  rewrite (bind_val _ _ _ _ _ (load_mat_val _ _ _ _ Hs)).
  rewrite (bind_val _ _ _ _ _ (load_val _ _ _ Hmask)).
  rewrite (bind_val _ _ _ _ _ (load_mat_val _ _ _ _ Hout)).
  simpl hd. by rewrite masked_divide.
Qed.

(** The last three operations of [e_step] together: the array they
    return holds [safe_divide], and the arrays that existed before
    them are unchanged (the write goes to the array made by
    [np.zeros_like]). *)
Lemma returns_divide_into_zeros weighted col_sums dW m ds c w :
  heap w !! weighted = Some (Mat dW m) ->
  heap w !! col_sums = Some (Mat ds [c]) ->
  returns (out ← zeros_like weighted;
           mask ← not_equal_zero col_sums;
           posterior ← divide_where weighted col_sums out mask;
           mret posterior) w
    (fun l w' => heap w' !! l = Some (Mat Float64 (safe_divide m c))).
Proof.
  intros HW Hs.
  destruct (returns_zeros_like_fresh weighted dW m w HW)
    as (out & w1 & E1 & Hext1 & Hout1 & Hout & Hfresh).
  destruct (returns_not_equal_zero col_sums ds c w1)
    as (mask & w2 & E2 & Hext2 & Hout2 & Hmask); [by eapply ext_lookup|].
  exists out, (World (<[out := Mat Float64 (safe_divide m c)]> (heap w2))
                 (stdout w2)).
  split.
  - rewrite (bind_val _ _ _ _ _ E1), (bind_val _ _ _ _ _ E2).
    erewrite bind_val; [reflexivity|].
    eapply divide_where_val; eauto using ext_lookup.
  - split; [|split; [simpl; congruence|apply lookup_insert_eq]].
    unfold ext in *. simpl. apply insert_subseteq_r; [done|]. by etrans.
Qed.

Lemma returns_sum_rows P d m w :
  heap w !! P = Some (Mat d m) ->
  returns (sum_rows P) w
    (fun l w' => heap w' !! l = Some (Vec Float64 (sum_axis1 m))).
Proof. intros HP. unfold sum_rows. read_mat HP. apply returns_alloc. Qed.

Lemma returns_sum_all v d x w :
  heap w !! v = Some (Vec d x) ->
  returns (sum_all v) w (fun t w' => t = vsum x /\ w' = w).
Proof.
  intros Hv. exists (vsum x), w. unfold sum_all, load_vec.
  rewrite (bind_val _ _ _ _ _ (bind_val _ _ _ _ _ (load_val _ _ _ Hv))).
  auto using ext_refl.
Qed.

Lemma returns_divide_scalar v d x t w :
  heap w !! v = Some (Vec d x) ->
  returns (divide_scalar v t) w
    (fun l w' => heap w' !! l = Some (Vec Float64 (map (fun c => c / t) x))).
Proof. intros Hv. unfold divide_scalar. read_vec Hv. apply returns_alloc. Qed.

Lemma returns_shape0_vec x d v w :
  heap w !! x = Some (Vec d v) ->
  returns (shape0 x) w (fun n w' => n = length v /\ w' = w).
Proof.
  intros Hx. exists (length v), w. unfold shape0.
  rewrite (bind_val _ _ _ _ _ (load_val _ _ _ Hx)). auto using ext_refl.
Qed.

Lemma returns_shape0_mat x d m w :
  heap w !! x = Some (Mat d m) ->
  returns (shape0 x) w (fun n w' => n = length m /\ w' = w).
Proof.
  intros Hx. exists (length m), w. unfold shape0.
  rewrite (bind_val _ _ _ _ _ (load_val _ _ _ Hx)). auto using ext_refl.
Qed.

Lemma returns_full n x w :
  returns (full n x) w
    (fun l w' => heap w' !! l = Some (Vec Float64 (np_full n x))).
Proof. apply returns_alloc. Qed.

Lemma returns_subtract x y dx a dy b d w :
  heap w !! x = Some (Vec dx a) -> heap w !! y = Some (Vec dy b) ->
  broadcast_sub a b = Ok d ->
  returns (subtract x y) w (fun l w' => heap w' !! l = Some (Vec Float64 d)).
Proof.
  intros Hx Hy Hd. unfold subtract.
  read_vec Hx. read_vec Hy. rewrite Hd.
  eapply returns_bind; [apply returns_lift|intros ? ? ? ->].
  apply returns_alloc.
Qed.

Lemma raises_subtract x y dx a dy b e w :
  heap w !! x = Some (Vec dx a) -> heap w !! y = Some (Vec dy b) ->
  broadcast_sub a b = Raise e ->
  raises (subtract x y) w e.
Proof.
  intros Hx Hy Hd. unfold subtract.
  eapply raises_bind; [by eapply returns_load_vec|intros ? w1 Hext1 ->].
  eapply raises_bind;
    [eapply returns_load_vec; by eapply ext_lookup|intros ? w2 Hext2 ->].
  rewrite Hd. apply raises_first, raises_lift.
Qed.

Lemma returns_absolute x d a w :
  heap w !! x = Some (Vec d a) ->
  returns (absolute x) w
    (fun l w' => heap w' !! l = Some (Vec Float64 (map Qcabs a))).
Proof. intros Hx. unfold absolute. read_vec Hx. apply returns_alloc. Qed.

Lemma returns_maximum x d a m w :
  heap w !! x = Some (Vec d a) -> np_max a = Ok m ->
  returns (maximum x) w (fun m' w' => m' = m).
Proof.
  intros Hx Hm. unfold maximum. read_vec Hx. rewrite Hm.
  apply returns_lift.
Qed.

Lemma raises_maximum x d a e w :
  heap w !! x = Some (Vec d a) -> np_max a = Raise e ->
  raises (maximum x) w e.
Proof.
  intros Hx Hm. unfold maximum.
  eapply raises_bind; [by eapply returns_load_vec|intros ? w1 Hext1 ->].
  rewrite Hm. apply raises_lift.
Qed.

End refinement.

Lemma e_step_returns lpi lA dpi pi dA A P (w : Heap.world) :
  Heap.heap w !! lpi = Some (Heap.Vec dpi pi) ->
  Heap.heap w !! lA = Some (Heap.Mat dA A) ->
  e_step pi A = Ok P ->
  returns (Heap.e_step lpi lA) w
    (fun l w' => Heap.heap w' !! l = Some (Heap.Mat Heap.Float64 P)).
Proof.
  intros Hpi HA HP. unfold e_step in HP.
  destruct (broadcast_mul A pi) as [W|e] eqn:HW; [|discriminate].
  simpl in HP. injection HP as <-. unfold Heap.e_step.
  eapply returns_bind; [by eapply returns_asarray_float_mat|].
  intros A' w1 Hext1 HA'; cbv beta in HA'.
  eapply returns_bind;
    [eapply returns_asarray_float_vec; by eapply ext_lookup|].
  intros pi' w2 Hext2 Hpi'; cbv beta in Hpi'.
  eapply returns_bind;
    [eapply (returns_mul_column A' pi' _ A _ pi W);
       [by eapply ext_lookup|done|done]|].
  intros weighted w3 Hext3 Hweighted; cbv beta in Hweighted.
  eapply returns_bind; [by eapply returns_sum_axis0_keepdims|].
  intros col_sums w4 Hext4 Hcol; cbv beta in Hcol.
  eapply returns_divide_into_zeros; eauto using ext_lookup.
Qed.

Lemma e_step_raises lpi lA dpi pi dA A e (w : Heap.world) :
  Heap.heap w !! lpi = Some (Heap.Vec dpi pi) ->
  Heap.heap w !! lA = Some (Heap.Mat dA A) ->
  e_step pi A = Raise e ->
  raises (Heap.e_step lpi lA) w e.
Proof.
  intros Hpi HA HP. unfold e_step in HP.
  destruct (broadcast_mul A pi) as [W|e'] eqn:HW; [discriminate|].
  simpl in HP. injection HP as ->. unfold Heap.e_step.
  eapply raises_bind; [by eapply returns_asarray_float_mat|].
  intros A' w1 Hext1 HA'; cbv beta in HA'.
  eapply raises_bind;
    [eapply returns_asarray_float_vec; by eapply ext_lookup|].
  intros pi' w2 Hext2 Hpi'; cbv beta in Hpi'.
  apply raises_first.
  eapply (raises_mul_column A' pi' _ A _ pi e);
    [by eapply ext_lookup|done|done].
Qed.

Lemma m_step_returns lP lA dP P A v (w : Heap.world) :
  Heap.heap w !! lP = Some (Heap.Mat dP P) ->
  m_step P A = Ok v ->
  returns (Heap.m_step lP lA) w
    (fun l w' => Heap.heap w' !! l = Some (Heap.Vec Heap.Float64 v)).
Proof.
  intros HP Hv. unfold m_step in Hv. unfold Heap.m_step.
  eapply returns_bind; [by eapply returns_asarray_float_mat|].
  intros p w1 Hext1 Hp; cbv beta in Hp.
  eapply returns_bind; [by eapply returns_sum_rows|].
  intros counts w2 Hext2 Hcounts; cbv beta in Hcounts.
  eapply returns_bind; [by eapply returns_sum_all|].
  intros total w3 Hext3 [-> ->].
  destruct (Qcltb 0 (vsum (sum_axis1 P))).
  - injection Hv as <-. by eapply returns_divide_scalar.
  - eapply returns_bind; [by eapply returns_shape0_vec|].
    intros T w4 Hext4 [-> ->].
    destruct (one_over (length (sum_axis1 P))) as [u|] eqn:E; [|discriminate].
    simpl in Hv. injection Hv as <-.
    eapply returns_bind; [apply returns_lift|intros ? w5 Hext5 ->].
    apply returns_alloc.
Qed.

Lemma m_step_raises lP lA dP P A e (w : Heap.world) :
  Heap.heap w !! lP = Some (Heap.Mat dP P) ->
  m_step P A = Raise e ->
  raises (Heap.m_step lP lA) w e.
Proof.
  intros HP Hv. unfold m_step in Hv. unfold Heap.m_step.
  eapply raises_bind; [by eapply returns_asarray_float_mat|].
  intros p w1 Hext1 Hp; cbv beta in Hp.
  eapply raises_bind; [by eapply returns_sum_rows|].
  intros counts w2 Hext2 Hcounts; cbv beta in Hcounts.
  eapply raises_bind; [by eapply returns_sum_all|].
  intros total w3 Hext3 [-> ->].
  destruct (Qcltb 0 (vsum (sum_axis1 P))); [discriminate|].
  eapply raises_bind; [by eapply returns_shape0_vec|].
  intros T w4 Hext4 [-> ->].
  destruct (one_over (length (sum_axis1 P))) as [u|e'] eqn:E; [discriminate|].
  simpl in Hv. injection Hv as ->.
  apply raises_first, raises_lift.
Qed.

Lemma converged_returns lu la du u da a tol c (w : Heap.world) :
  Heap.heap w !! lu = Some (Heap.Vec du u) ->
  Heap.heap w !! la = Some (Heap.Vec da a) ->
  converged u a tol = Ok c ->
  returns (Heap.converged lu la tol) w (fun c' w' => c' = c).
Proof.
  intros Hu Ha Hc. unfold converged in Hc. unfold Heap.converged.
  destruct (broadcast_sub u a) as [d|] eqn:Hd; [|discriminate].
  simpl in Hc.
  destruct (np_max (map Qcabs d)) as [m|] eqn:Hm; [|discriminate].
  simpl in Hc. injection Hc as <-.
  eapply returns_bind; [by eapply returns_subtract|].
  intros ld w1 Hext1 Hld; cbv beta in Hld.
  eapply returns_bind; [by eapply returns_absolute|].
  intros lab w2 Hext2 Hlab; cbv beta in Hlab.
  eapply returns_bind; [by eapply returns_maximum|].
  intros ? w3 Hext3 ->. by apply returns_ret.
Qed.

Lemma converged_raises lu la du u da a tol e (w : Heap.world) :
  Heap.heap w !! lu = Some (Heap.Vec du u) ->
  Heap.heap w !! la = Some (Heap.Vec da a) ->
  converged u a tol = Raise e ->
  raises (Heap.converged lu la tol) w e.
Proof.
  intros Hu Ha Hc. unfold converged in Hc. unfold Heap.converged.
  destruct (broadcast_sub u a) as [d|e'] eqn:Hd.
  - simpl in Hc.
    destruct (np_max (map Qcabs d)) as [m|e'] eqn:Hm; [discriminate|].
    simpl in Hc. injection Hc as ->.
    eapply raises_bind; [by eapply returns_subtract|].
    intros ld w1 Hext1 Hld; cbv beta in Hld.
    eapply raises_bind; [by eapply returns_absolute|].
    intros lab w2 Hext2 Hlab; cbv beta in Hlab.
    apply raises_first. by eapply raises_maximum.
  - simpl in Hc. injection Hc as ->.
    apply raises_first. by eapply raises_subtract.
Qed.

Lemma refines_bind {A B C} (m : Heap.M A) (k : A -> Heap.M B) w Q
    (r : result C) rel :
  returns m w Q ->
  (forall a w', ext w w' -> Q a w' -> refines (k a) w' r rel) ->
  refines (m ≫= k) w r rel.
Proof.
  destruct r; simpl; [apply returns_bind|apply raises_bind].
Qed.

Lemma em_loop_refines lA dA A tol remaining :
  forall iteration la alpha (w : Heap.world),
  Heap.heap w !! lA = Some (Heap.Mat dA A) ->
  Heap.heap w !! la = Some (Heap.Vec Heap.Float64 alpha) ->
  refines (Heap.em_loop lA tol remaining iteration la) w
    (em_loop A tol remaining iteration alpha) exit_rel.
Proof.
  induction remaining as [|remaining IH]; intros iteration la alpha w HA Ha.
  - simpl. by apply returns_ret.
  - rewrite em_loop_S. simpl Heap.em_loop.
    destruct (e_step alpha A) as [P|e] eqn:HP; simpl; cycle 1.
    { apply raises_first. by eapply e_step_raises. }
    destruct (m_step P A) as [u|e] eqn:Hu; simpl; cycle 1.
    { eapply raises_bind; [by eapply e_step_returns|].
      intros lP w1 Hext1 HlP; cbv beta in HlP.
      apply raises_first. by eapply m_step_raises. }
    destruct (converged u alpha tol) as [c|e] eqn:Hc; simpl; cycle 1.
    { eapply raises_bind; [by eapply e_step_returns|].
      intros lP w1 Hext1 HlP; cbv beta in HlP.
      eapply raises_bind; [by eapply m_step_returns|].
      intros lu w2 Hext2 Hlu; cbv beta in Hlu.
      apply raises_first.
      eapply converged_raises; eauto using ext_lookup. }
    eapply refines_bind; [by eapply e_step_returns|].
    intros lP w1 Hext1 HlP; cbv beta in HlP.
    eapply refines_bind; [by eapply m_step_returns|].
    intros lu w2 Hext2 Hlu; cbv beta in Hlu.
    eapply refines_bind;
      [eapply converged_returns; eauto using ext_lookup|].
    intros ? w3 Hext3 ->. destruct c.
    + apply returns_ret. split; [done|]. by eapply ext_lookup.
    + apply IH; eauto 6 using ext_lookup.
Qed.

Lemma initialize_refines lA dA A init linit (w : Heap.world) :
  Heap.heap w !! lA = Some (Heap.Mat dA A) ->
  init_rel w init linit ->
  refines (Heap.initialize lA linit) w (initialize A init)
    (fun v l w' => Heap.heap w' !! l = Some (Heap.Vec Heap.Float64 v)).
Proof.
  intros HA Hinit. destruct init as [v|], linit as [l|]; try done; simpl.
  - destruct Hinit as [d Hl].
    eapply returns_bind; [by eapply returns_asarray_float_vec|].
    intros a w1 Hext1 Ha; cbv beta in Ha. by eapply returns_copy.
  - destruct (one_over (length A)) as [u|e] eqn:E; simpl.
    + eapply returns_bind; [by eapply returns_shape0_mat|].
      intros ? w1 Hext1 [-> ->]. rewrite E.
      eapply returns_bind; [apply returns_lift|intros ? w2 Hext2 ->].
      apply returns_full.
    + eapply raises_bind; [by eapply returns_shape0_mat|].
      intros ? w1 Hext1 [-> ->]. rewrite E.
      apply raises_first, raises_lift.
Qed.

(** [run_em_algorithm] on references computes what it computes on
    the values the references hold. *)
Lemma run_em_algorithm_refines lA dA A init linit tol max_iters
    (w : Heap.world) :
  Heap.heap w !! lA = Some (Heap.Mat dA A) ->
  init_rel w init linit ->
  run_rel (run_em_algorithm A init tol max_iters (Heap.stdout w))
    (Heap.run_em_algorithm lA linit tol max_iters w).
Proof.
  intros HA Hinit.
  pose proof (initialize_refines lA dA A init linit w HA Hinit) as Hi.
  unfold run_em_algorithm, Heap.run_em_algorithm.
  destruct (initialize A init) as [alpha|e]; simpl in Hi; cycle 1.
  { destruct Hi as (w1 & E1 & _ & Hout1).
    unfold mbind, Heap.M_bind. rewrite E1. by split. }
  destruct Hi as (la & w1 & E1 & Hext1 & Hout1 & Hla).
  rewrite (bind_val _ _ _ _ _ E1).
  pose proof (em_loop_refines lA dA A tol (Z.to_nat max_iters) 0 la alpha w1
                (ext_lookup _ _ _ _ Hext1 HA) Hla) as Hl.
  destruct (em_loop A tol (Z.to_nat max_iters) 0 alpha) as [ex|e];
    simpl in Hl; cycle 1.
  { destruct Hl as (w2 & E2 & _ & Hout2).
    unfold mbind, Heap.M_bind. rewrite E2. split; [done|]. simpl. congruence. }
  destruct Hl as (ex' & w2 & E2 & Hext2 & Hout2 & Hex).
  rewrite (bind_val _ _ _ _ _ E2).
  destruct ex as [v n|v], ex' as [l n'|l]; try done; simpl in Hex.
  - destruct Hex as [-> Hl]. exists l. simpl. repeat split; [done|congruence].
  - exists l. simpl. repeat split; [done|congruence].
Qed.

(** ** Determinism *)

(** The result and the printed text do not depend on what was printed
    before the call. *)
Lemma run_em_algorithm_stdout (A : matrix) (init : option vector) (tol : Qc)
    (max_iters : Z) :
  exists r t, forall out,
    run_em_algorithm A init tol max_iters out = (r, out ++ t).
Proof.
  unfold run_em_algorithm.
  destruct (initialize A init) as [alpha|e].
  - destruct (em_loop A tol (Z.to_nat max_iters) 0 alpha) as [[v n|v]|e].
    + exists (Ok (v, n)), []. intros out. by rewrite app_nil_r.
    + by exists (Ok (v, max_iters)), [warning max_iters].
    + exists (Raise e), []. intros out. by rewrite app_nil_r.
  - exists (Raise e), []. intros out. by rewrite app_nil_r.
Qed.

Lemma same_outcome_of_refines r1 r2 w1 o1 w2 o2 t :
  r1 = (r2, Heap.stdout w1 ++ t) ->
  run_rel r1 o1 -> run_rel (r2, Heap.stdout w2 ++ t) o2 ->
  same_outcome w1 o1 w2 o2.
Proof.
  intros -> H1 H2. unfold same_outcome.
  destruct r2 as [[v n]|e]; simpl in *.
  - destruct H1 as (l1 & -> & Hl1 & Ho1), H2 as (l2 & -> & Hl2 & Ho2).
    split; [by exists t|]. split; [done|]. by exists v.
  - destruct H1 as (-> & Ho1), H2 as (-> & Ho2).
    split; [by exists t|done].
Qed.

Lemma init_rel_ext w w' init linit :
  ext w w' -> init_rel w init linit -> init_rel w' init linit.
Proof.
  intros Hext. destruct init, linit; simpl; try done.
  intros [d Hd]. exists d. by eapply lookup_weaken.
Qed.

(** C8. Two calls of [run_em_algorithm] with identical arguments (the
    same matrix contents, the same start vector contents or no start
    vector, the same tolerance and budget) end alike whatever else
    the two worlds hold and whatever has been printed before: the
    same iteration count and an abundance vector with the same
    contents, or the same exception.  In particular a second call made
    after the first, in the world the first call left, ends as the
    first did. *)
Theorem run_em_algorithm_deterministic (A : matrix) (init : option vector)
    (tol : Qc) (max_iters : Z) (w1 w2 : Heap.world) (lA1 lA2 : Heap.loc)
    (d1 d2 : Heap.dtype) (linit1 linit2 : option Heap.loc) :
  Heap.heap w1 !! lA1 = Some (Heap.Mat d1 A) ->
  Heap.heap w2 !! lA2 = Some (Heap.Mat d2 A) ->
  init_rel w1 init linit1 -> init_rel w2 init linit2 ->
  let o1 := Heap.run_em_algorithm lA1 linit1 tol max_iters w1 in
  same_outcome w1 o1 w2 (Heap.run_em_algorithm lA2 linit2 tol max_iters w2) /\
  same_outcome w1 o1 o1.2 (Heap.run_em_algorithm lA1 linit1 tol max_iters o1.2).
Proof.
  intros HA1 HA2 Hi1 Hi2 o1.
  destruct (run_em_algorithm_stdout A init tol max_iters) as (r & t & Hrun).
  pose proof (run_em_algorithm_refines lA1 d1 A init linit1 tol max_iters w1
                HA1 Hi1) as H1.
  split.
  - eapply same_outcome_of_refines; [apply Hrun|exact H1|].
    rewrite <- Hrun. by eapply run_em_algorithm_refines.
  - destruct (frames_run_em_algorithm w1 lA1 linit1 tol max_iters w1)
      as [Hext _]; [unfold ext; reflexivity|]. fold o1 in Hext.
    eapply same_outcome_of_refines; [apply Hrun|exact H1|].
    rewrite <- Hrun. eapply run_em_algorithm_refines.
    + by eapply lookup_weaken.
    + by eapply init_rel_ext.
Qed.

Lemma run_em_algorithm_deterministic_witness :
  Heap.heap world_a !! 0%nat = Some (Heap.Mat Heap.Int64 equal_matrix) /\
  Heap.heap world_b !! 3%nat = Some (Heap.Mat Heap.Float64 equal_matrix) /\
  let o1 := Heap.run_em_algorithm 0%nat None default_tol 1 world_a in
  same_outcome world_a o1 world_b
    (Heap.run_em_algorithm 3%nat None default_tol 1 world_b) /\
  same_outcome world_a o1 o1.2
    (Heap.run_em_algorithm 0%nat None default_tol 1 o1.2).
Proof.
  assert (Ha : Heap.heap world_a !! 0%nat =
               Some (Heap.Mat Heap.Int64 equal_matrix)) by reflexivity.
  assert (Hb : Heap.heap world_b !! 3%nat =
               Some (Heap.Mat Heap.Float64 equal_matrix)) by reflexivity.
  exact (conj Ha (conj Hb
    (run_em_algorithm_deterministic equal_matrix None default_tol 1
       world_a world_b 0%nat 3%nat Heap.Int64 Heap.Float64 None None
       Ha Hb I I))).
Defined.

(** * Further properties of the three functions *)

(** ** When the expectation step raises *)

Lemma length_broadcast_mul (A : matrix) (pi : vector) (W : matrix) :
  broadcast_mul A pi = Ok W ->
  length W =
    if (length A =? length pi)%nat then length A
    else if (length pi =? 1)%nat then length A else length pi.
Proof.
  unfold broadcast_mul.
  destruct (Nat.eqb_spec (length A) (length pi)) as [E|E].
  - intros [= <-]. rewrite length_zip_with. lia.
  - destruct (Nat.eqb_spec (length pi) 1).
    + intros [= <-]. apply length_map.
    + destruct (Nat.eqb_spec (length A) 1); [|done].
      intros [= <-]. apply length_map.
Qed.

(** X1. [e_step] raises exactly when the abundance vector and the
    matrix cannot be broadcast together: the length of the vector
    differs from the number of rows and neither is 1.  The only
    exception it raises is numpy's broadcasting error, and when it
    returns, the posterior has as many rows as the broadcast shape. *)
Theorem e_step_raises_iff (pi : vector) (A : matrix) :
  (e_step pi A = Raise BroadcastError <->
   length pi <> length A /\ length pi <> 1%nat /\ length A <> 1%nat) /\
  (forall e, e_step pi A = Raise e -> e = BroadcastError) /\
  (forall P, e_step pi A = Ok P ->
   length P =
     if (length A =? length pi)%nat then length A
     else if (length pi =? 1)%nat then length A else length pi).
Proof.
  unfold e_step. split; [split|split].
  - intros H. unfold broadcast_mul in H.
    destruct (Nat.eqb_spec (length A) (length pi)); [done|].
    destruct (Nat.eqb_spec (length pi) 1); [done|].
    destruct (Nat.eqb_spec (length A) 1); [done|]. auto.
  - intros (H1 & H2 & H3). by rewrite broadcast_mul_mismatch.
  - intros e. unfold broadcast_mul.
    destruct (length A =? length pi)%nat; [done|].
    destruct (length pi =? 1)%nat; [done|].
    destruct (length A =? 1)%nat; [done|]. by intros [= <-].
  - intros P. destruct (broadcast_mul A pi) as [W|e] eqn:HW; [|done].
    simpl. intros [= <-]. rewrite length_safe_divide.
    by apply length_broadcast_mul.
Qed.

Lemma e_step_raises_iff_witness :
  e_step [1; 1; 1] equal_matrix = Raise BroadcastError /\
  (length [1 : Qc; 1; 1] <> length equal_matrix /\
   length [1 : Qc; 1; 1] <> 1%nat /\ length equal_matrix <> 1%nat) /\
  length [[1 / 2; 1 / 2]; [1 / 2; 1 / 2]] = 2%nat.
Proof.
  destruct (e_step_raises_iff [1; 1; 1] equal_matrix) as ([H1 H2] & H3 & _).
  destruct (e_step_raises_iff [1] equal_matrix) as (_ & _ & H4).
  assert (Hs : length [1 : Qc; 1; 1] <> length equal_matrix /\
               length [1 : Qc; 1; 1] <> 1%nat /\ length equal_matrix <> 1%nat)
    by (simpl; lia).
  assert (He : e_step [1] equal_matrix = Ok [[1 / 2; 1 / 2]; [1 / 2; 1 / 2]])
    by by_compute.
  exact (conj (H2 Hs) (conj (H1 (H2 Hs)) (H4 _ He))).
Defined.

(** X2. An abundance vector of length 1 is broadcast over the rows: the
    posterior is the one of the constant vector with one entry per
    row. *)
Theorem e_step_scalar_abundance (p : Qc) (A : matrix) :
  e_step [p] A = e_step (replicate (length A) p) A.
Proof.
  unfold e_step.
  assert (H : broadcast_mul A [p] = broadcast_mul A (replicate (length A) p)).
  { unfold broadcast_mul at 2. rewrite length_replicate, Nat.eqb_refl.
    unfold broadcast_mul. simpl length.
    assert (Hz : zip_with (fun row q => map (fun a => a * q) row) A
                   (replicate (length A) p) =
                 map (fun row => map (fun a => a * p) row) A).
    { induction A as [|row A IH]; simpl; [done|]. by rewrite IH. }
    rewrite Hz. destruct (Nat.eqb_spec (length A) 1) as [E|E]; [|done].
    destruct A as [|row [|? ?]]; done. }
  by rewrite H.
Qed.

(** ** The convergence test *)

Lemma foldl_Qcmax_lt (x : Qc) (l : vector) (tol : Qc) :
  foldl Qcmax x l < tol <-> x < tol /\ Forall (fun y => y < tol) l.
Proof.
  revert x. induction l as [|y l IH]; intros x; simpl.
  - split; [intros H; by split|by intros [H _]].
  - rewrite IH, Forall_cons. unfold Qcmax.
    destruct (Qcltb x y) eqn:E.
    + apply Qcltb_true in E. split.
      * intros [Hy Hl]. repeat split; try done. by eapply Qclt_trans.
      * intros (_ & Hy & Hl). by split.
    + apply Qcltb_false in E. split.
      * intros [Hx Hl]. repeat split; try done. by eapply Qcle_lt_trans.
      * intros (Hx & _ & Hl). by split.
Qed.

(** X3. On two non-empty arrays of the same length the convergence
    test succeeds exactly when every entry changed by less than the
    tolerance. *)
Theorem converged_iff (updated alpha : vector) (tol : Qc) :
  length updated = length alpha -> alpha <> [] ->
  exists c, converged updated alpha tol = Ok c /\
    (c = true <->
     Forall (fun d => Qcabs d < tol) (zip_with Qcminus updated alpha)).
Proof.
  intros Hlen Hne. unfold converged, broadcast_sub.
  rewrite Hlen, Nat.eqb_refl. simpl.
  destruct updated as [|u updated]; destruct alpha as [|a alpha]; try done.
  simpl. eexists. split; [reflexivity|].
  rewrite Qcltb_true, foldl_Qcmax_lt, Forall_cons, Forall_map. done.
Qed.

Lemma converged_iff_witness :
  length [1 / 2; 1 / 2] = length test_abundance /\ test_abundance <> [] /\
  exists c, converged [1 / 2; 1 / 2] test_abundance default_tol = Ok c /\
    (c = true <->
     Forall (fun d => Qcabs d < default_tol)
       (zip_with Qcminus [1 / 2; 1 / 2] test_abundance)).
Proof.
  assert (H1 : length [1 / 2; 1 / 2] = length test_abundance) by reflexivity.
  assert (H2 : test_abundance <> []) by discriminate.
  exact (conj H1 (conj H2
    (converged_iff [1 / 2; 1 / 2] test_abundance default_tol H1 H2))).
Defined.

(** ** Responsibilities are probabilities *)

(** Entry by entry, a row of a non-negative matrix is below the column
    sums. *)
Lemma row_le_sum_axis0 R (W : matrix) (row : vector) i w c :
  nonneg2 W -> row ∈ W ->
  row !! i = Some w -> sum_axis0 R W !! i = Some c -> 0 <= w /\ w <= c.
Proof.
  intros HW. revert c.
  induction HW as [|row0 W Hrow0 HW IH]; intros c Hin Hw Hc.
  { by apply elem_of_nil in Hin. }
  simpl in Hc. apply lookup_zip_with_Some in Hc as (w0 & c' & -> & Hw0 & Hc').
  assert (Hw0' : 0 <= w0).
  { eapply (proj1 (Forall_lookup _ _) Hrow0); eauto. }
  assert (Hc'' : 0 <= c').
  { eapply (proj1 (Forall_lookup _ _) (nonneg_sum_axis0 R W HW)); eauto. }
  apply elem_of_cons in Hin as [->|Hin].
  - assert (w = w0) by congruence. subst w0. split; [done|].
    rewrite <- (Qcplus_0_r w) at 1. by apply Qcplus_le_mono_l.
  - destruct (IH c' Hin Hw Hc') as [H0 Hle]. split; [done|].
    eapply Qcle_trans; [exact Hle|].
    rewrite <- (Qcplus_0_l c') at 1. by apply Qcplus_le_mono_r.
Qed.

(** X6. For a non-negative [T x R] matrix and a non-negative
    abundance vector with one entry per row, the weighted column totals
    being in the range of float64, every entry of the posterior lies
    between 0 and 1. *)
Theorem e_step_unit_interval (pi : vector) (A : matrix) (R : nat) :
  length pi = length A -> rect R A ->
  nonneg pi -> nonneg2 A -> in_range pi A R ->
  exists P, e_step pi A = Ok P /\ Forall (Forall unit_interval) P.
Proof.
  intros Hlen _ Hpi HA _. unfold e_step. rewrite broadcast_mul_same by done.
  eexists. split; [reflexivity|].
  set (W := zip_with (fun row p => map (fun a => a * p) row) A pi).
  assert (HW : nonneg2 W) by by apply nonneg_scale_rows.
  unfold safe_divide. apply Forall_map, Forall_forall. intros row Hrow. simpl.
  apply Forall_lookup. intros i x Hx.
  apply lookup_zip_with_Some in Hx as (w & c & -> & Hw & Hc).
  destruct (row_le_sum_axis0 _ W row i w c HW Hrow Hw Hc) as [H0 Hle].
  destruct (Qceqb c 0) eqn:E; [by split|].
  apply Qceqb_false in E.
  assert (Hpos : 0 < c).
  { destruct (Qcle_lt_or_eq 0 c); [by eapply Qcle_trans|done|congruence]. }
  split; [by apply Qcdiv_nonneg|].
  unfold Qcdiv. rewrite <- (Qcmult_inv_r c) by done.
  apply Qcmult_le_mono_nonneg_r; [|done].
  apply Qclt_le_weak. by apply Qcinv_pos.
Qed.

Lemma e_step_unit_interval_witness :
  length test_abundance = length test_assignment_matrix /\
  rect 2 test_assignment_matrix /\
  nonneg test_abundance /\ nonneg2 test_assignment_matrix /\
  in_range test_abundance test_assignment_matrix 2 /\
  exists P, e_step test_abundance test_assignment_matrix = Ok P /\
    Forall (Forall unit_interval) P.
Proof.
  assert (H1 : length test_abundance = length test_assignment_matrix)
    by reflexivity.
  assert (H2 : rect 2 test_assignment_matrix) by (repeat constructor).
  assert (H3 : nonneg test_abundance) by by_compute.
  assert (H4 : nonneg2 test_assignment_matrix) by by_compute.
  assert (H5 : in_range test_abundance test_assignment_matrix 2).
  { intros [|[|r]] Hr; [by_compute|by_compute|lia]. }
  exact (conj H1 (conj H2 (conj H3 (conj H4 (conj H5
    (e_step_unit_interval _ _ 2 H1 H2 H3 H4 H5)))))).
Defined.

(** X7. A transcript gets no responsibility for a read it is not
    compatible with, and a transcript of abundance 0 gets no
    responsibility at all: for non-negative arrays with weighted column
    totals in the range of float64, where [A[t, r] = 0] or [pi[t] = 0]
    the posterior entry [(t, r)] is 0. *)
Theorem e_step_zero_responsibility (pi : vector) (A : matrix) (R t r : nat)
    (row : vector) (a p : Qc) :
  length pi = length A -> rect R A ->
  nonneg pi -> nonneg2 A -> in_range pi A R ->
  (r < R)%nat ->
  A !! t = Some row -> row !! r = Some a -> pi !! t = Some p ->
  a = 0 \/ p = 0 ->
  exists P prow, e_step pi A = Ok P /\ P !! t = Some prow /\
    prow !! r = Some 0.
Proof.
  intros Hlen HA _ _ _ Hr Ht Ha Hp Hz.
  destruct (e_step_same pi A R Hlen HA) as (HP & HlenW & HW & Hnc).
  set (W := zip_with (fun row p => map (fun a => a * p) row) A pi) in *.
  assert (HWt : W !! t = Some (map (fun a => a * p) row)).
  { unfold W. by rewrite lookup_zip_with, Ht, Hp. }
  assert (HWne : W <> []) by (intros E; by rewrite E in HWt).
  rewrite (Hnc HWne) in HP.
  assert (Hs : length (sum_axis0 R W) = R) by by apply length_sum_axis0.
  destruct (lookup_lt_is_Some_2 (sum_axis0 R W) r) as [c Hc]; [lia|].
  eexists _, _. split; [exact HP|].
  unfold safe_divide. rewrite list_lookup_fmap, HWt. simpl.
  split; [reflexivity|].
  rewrite lookup_zip_with, list_lookup_fmap, Ha, Hc. simpl.
  assert (Hap : a * p = 0) by (destruct Hz as [-> | ->]; ring).
  rewrite Hap. destruct (Qceqb c 0); [done|].
  f_equal. unfold Qcdiv. ring.
Qed.

Lemma e_step_zero_responsibility_witness :
  nonneg test_abundance /\ nonneg2 test_assignment_matrix /\
  in_range test_abundance test_assignment_matrix 2 /\
  exists P prow,
    e_step test_abundance test_assignment_matrix = Ok P /\
    P !! 0%nat = Some prow /\ prow !! 1%nat = Some 0.
Proof.
  assert (H3 : nonneg test_abundance) by by_compute.
  assert (H4 : nonneg2 test_assignment_matrix) by by_compute.
  assert (H5 : in_range test_abundance test_assignment_matrix 2).
  { intros [|[|r]] Hr; [by_compute|by_compute|lia]. }
  split; [exact H3|]. split; [exact H4|]. split; [exact H5|].
  apply (e_step_zero_responsibility test_abundance test_assignment_matrix
           2 0 1 [1; 0] 0 (1 / 2));
    [reflexivity|repeat constructor|exact H3|exact H4|exact H5|lia
    |reflexivity|reflexivity|reflexivity|by left].
Defined.

(** ** When the maximisation step raises *)

(** X8. [m_step] raises exactly when the posterior has no rows, and
    then it is [ZeroDivisionError], from the uniform fallback. *)
Theorem m_step_raises_iff (P A : matrix) :
  (m_step P A = Raise ZeroDivisionError <-> P = []) /\
  (forall e, m_step P A = Raise e -> e = ZeroDivisionError).
Proof.
  destruct P as [|row P].
  - split; [by split|]. intros e. by intros [= <-].
  - destruct (m_step_spec (row :: P) A) as (v & Hv & _); [done|].
    rewrite Hv. split; [by split|]. by intros e.
Qed.

Lemma m_step_raises_iff_witness :
  m_step [] test_assignment_matrix = Raise ZeroDivisionError /\
  ([] : matrix) = [].
Proof.
  destruct (m_step_raises_iff [] test_assignment_matrix) as ([H1 H2] & _).
  exact (conj (H2 eq_refl) (H1 (H2 eq_refl))).
Defined.

(** ** What the returned pair and the warning mean *)

(** How the loop can end: a [Converged] exit comes from a pass whose
    test succeeded, with a count inside the budget; an [Exhausted]
    exit is the start itself (no budget) or comes from a pass whose
    test failed. *)
Lemma em_loop_exit (A : matrix) (tol : Qc) remaining :
  forall iteration alpha ex,
  em_loop A tol remaining iteration alpha = Ok ex ->
  match ex with
  | Converged v n =>
      (iteration < n <= iteration + Z.of_nat remaining)%Z /\
      exists a, em_iteration A tol a v true
  | Exhausted v =>
      (remaining = 0%nat /\ v = alpha) \/
      exists a, em_iteration A tol a v false
  end.
Proof.
  induction remaining as [|remaining IH]; intros iteration alpha ex Hex.
  - simpl in Hex. injection Hex as <-. by left.
  - rewrite em_loop_S in Hex.
    destruct (e_step alpha A) as [P|] eqn:HP; [|done]. simpl in Hex.
    destruct (m_step P A) as [u|] eqn:Hu; [|done]. simpl in Hex.
    destruct (converged u alpha tol) as [c|] eqn:Hc; [|done]. simpl in Hex.
    destruct c.
    + injection Hex as <-. split; [lia|]. exists alpha. by exists P.
    + apply IH in Hex. destruct ex as [v n|v].
      * destruct Hex as [Hn Ha]. split; [lia|done].
      * destruct Hex as [[-> ->]|Ha]; [|by right].
        right. exists alpha. by exists P.
Qed.

(** X12. What a returned pair means.  When [run_em_algorithm] returns
    [(v, n)] without printing, [v] is the update of a pass that met the
    tolerance and [1 <= n <= max_iters].  Otherwise it has printed
    exactly the non-convergence warning, [n] is [max_iters], and with a
    budget of at least one iteration [v] is the update of a pass that
    did not meet the tolerance.  When it raises, nothing is printed. *)
Theorem run_em_algorithm_outcome (A : matrix) (init : option vector)
    (tol : Qc) (max_iters : Z) (out out' : list string)
    (r : result (vector * Z)) :
  run_em_algorithm A init tol max_iters out = (r, out') ->
  match r with
  | Ok (v, n) =>
      (out' = out /\ (1 <= n <= max_iters)%Z /\
       exists alpha, em_iteration A tol alpha v true) \/
      (out' = out ++ [warning max_iters] /\ n = max_iters /\
       ((1 <= max_iters)%Z -> exists alpha, em_iteration A tol alpha v false))
  | Raise _ => out' = out
  end.
Proof.
  unfold run_em_algorithm.
  destruct (initialize A init) as [alpha|e]; [|by intros [= <- <-]].
  destruct (em_loop A tol (Z.to_nat max_iters) 0 alpha) as [ex|e] eqn:Hex;
    [|by intros [= <- <-]].
  apply em_loop_exit in Hex.
  destruct ex as [v n|v]; intros [= <- <-].
  - left. destruct Hex as [Hn Ha]. repeat split; [lia|lia|done].
  - right. repeat split. intros Hmax.
    destruct Hex as [[H0 _]|Ha]; [lia|done].
Qed.

Lemma run_em_algorithm_outcome_witness :
  (([] : list string) = [] /\ (1 <= 1 <= default_max_iters)%Z /\
   exists alpha, em_iteration equal_matrix default_tol alpha [1 / 2; 1 / 2] true) \/
  (([] : list string) = [] ++ [warning default_max_iters] /\
   1%Z = default_max_iters /\
   ((1 <= default_max_iters)%Z ->
    exists alpha, em_iteration equal_matrix default_tol alpha [1 / 2; 1 / 2] false)).
Proof.
  apply (run_em_algorithm_outcome equal_matrix None default_tol
           default_max_iters [] [] (Ok ([1 / 2; 1 / 2], 1%Z))).
  by_compute.
Defined.

(** ** A tolerance that cannot be met *)

Lemma foldl_Qcmax_ge (x : Qc) (l : vector) : x <= foldl Qcmax x l.
Proof.
  revert x. induction l as [|y l IH]; intros x; simpl; [apply Qcle_refl|].
  eapply Qcle_trans; [|apply IH]. unfold Qcmax.
  destruct (Qcltb x y) eqn:E; [|apply Qcle_refl].
  apply Qcltb_true in E. by apply Qclt_le_weak.
Qed.

Lemma converged_nonpos_tol (updated alpha : vector) (tol : Qc) (c : bool) :
  tol <= 0 -> converged updated alpha tol = Ok c -> c = false.
Proof.
  intros Htol. unfold converged.
  destruct (broadcast_sub updated alpha) as [d|]; [|done]. simpl.
  destruct d as [|x d]; [done|]. simpl. intros [= <-].
  apply Qcltb_false. eapply Qcle_trans; [exact Htol|].
  eapply Qcle_trans; [apply (Qcabs_nonneg x)|]. apply foldl_Qcmax_ge.
Qed.

(** X13. With a tolerance that is zero or negative the test never
    succeeds: on a matrix with at least one row and a start that is
    absent or has one entry per row, the loop uses its whole budget, the
    count returned is [max_iters] and the warning is printed. *)
Theorem nonpositive_tolerance_exhausts (A : matrix) (init : option vector)
    (tol : Qc) (max_iters : Z) (out : list string) :
  tol <= 0 -> A <> [] ->
  match init with Some v => length v = length A | None => True end ->
  exists v, run_em_algorithm A init tol max_iters out =
            (Ok (v, max_iters), out ++ [warning max_iters]).
Proof.
  intros Htol HA Hinit.
  assert (Halpha : exists alpha,
            initialize A init = Ok alpha /\ length alpha = length A).
  { destruct init as [v|].
    - by exists v.
    - eexists. split; [by apply initialize_default|].
      by apply uniform_simplex. }
  destruct Halpha as (alpha & Halpha & Hlen).
  destruct (em_loop_invariant
              (fun alpha => length alpha = length A) (fun _ => True) A tol)
    with (remaining := Z.to_nat max_iters) (iteration := 0%Z) (alpha := alpha)
    as (ex & Hex & _).
  { intros alpha' Hl'.
    destruct (em_iteration_total A tol alpha' HA Hl') as (u & c & Hit & Hlu & _).
    by exists u, c. }
  { done. }
  unfold run_em_algorithm. rewrite Halpha, Hex.
  apply em_loop_exit in Hex. destruct ex as [v n|v]; [|by exists v].
  destruct Hex as (_ & a & P & _ & _ & Hc).
  by apply (converged_nonpos_tol _ _ _ _ Htol) in Hc.
Qed.

Lemma nonpositive_tolerance_exhausts_witness :
  (0 : Qc) <= 0 /\ equal_matrix <> [] /\
  exists v, run_em_algorithm equal_matrix None 0 3 [] =
            (Ok (v, 3%Z), [] ++ [warning 3]).
Proof.
  assert (H1 : (0 : Qc) <= 0) by by_compute.
  assert (H2 : equal_matrix <> []) by discriminate.
  exact (conj H1 (conj H2
    (nonpositive_tolerance_exhausts equal_matrix None 0 3 [] H1 H2 I))).
Defined.

(** ** A budget below zero *)

(** X14. A negative [max_iters] behaves like 0 for the loop but is
    returned as it is: the start vector comes back with the negative
    number as iteration count, and the warning is printed. *)
Theorem negative_budget (A : matrix) (v : vector) (tol : Qc) (max_iters : Z)
    (out : list string) :
  (max_iters <= 0)%Z ->
  run_em_algorithm A (Some v) tol max_iters out =
    (Ok (v, max_iters), out ++ [warning max_iters]).
Proof.
  intros Hm. unfold run_em_algorithm. simpl initialize.
  by rewrite Z2Nat.nonpos.
Qed.

Lemma negative_budget_witness :
  (-3 <= 0)%Z /\
  run_em_algorithm equal_matrix (Some test_abundance) default_tol (-3) [] =
    (Ok (test_abundance, (-3)%Z),
     [] ++ ["Warning: EM algorithm did not converge after -3 iterations"]).
Proof.
  assert (H : (-3 <= 0)%Z) by lia.
  exact (conj H (negative_budget equal_matrix test_abundance default_tol
                   (-3) [] H)).
Defined.

(** ** Zero abundance is absorbing *)

Lemma lookup_le_vsum (v : vector) i x :
  nonneg v -> v !! i = Some x -> x <= vsum v.
Proof.
  intros Hv. revert i. induction Hv as [|y v Hy Hv IH]; intros [|i] Hx;
    try done.
  - injection Hx as ->. rewrite vsum_cons.
    rewrite <- (Qcplus_0_r x) at 1. apply Qcplus_le_mono_l. by apply vsum_nonneg.
  - rewrite vsum_cons. eapply Qcle_trans; [by eapply IH|].
    rewrite <- (Qcplus_0_l (vsum v)) at 1. by apply Qcplus_le_mono_r.
Qed.

Lemma Qcmult_pos_inv (a p : Qc) : 0 <= a -> 0 <= p -> 0 < a * p -> 0 < a /\ 0 < p.
Proof.
  intros Ha Hp Hap. split.
  - destruct (Qcle_lt_or_eq _ _ Ha) as [H|H]; [done|].
    rewrite <- H, Qcmult_0_l in Hap. by apply Qclt_not_eq in Hap.
  - destruct (Qcle_lt_or_eq _ _ Hp) as [H|H]; [done|].
    rewrite <- H, Qcmult_0_r in Hap. by apply Qclt_not_eq in Hap.
Qed.

Lemma Qcdiv_pos (x y : Qc) : 0 < x -> 0 < y -> 0 < x / y.
Proof.
  intros Hx Hy. unfold Qcdiv. apply Qcmult_pos_pos; [done|by apply Qcinv_pos].
Qed.

(** One pass of the loop body from a non-negative estimate under which
    some read has support: the normalising branch of [m_step] is taken,
    a transcript at 0 stays at 0, and some read still has support. *)
Lemma em_iteration_supported (A : matrix) (R : nat) tol (alpha : vector) t :
  rect R A -> nonneg2 A ->
  length alpha = length A /\ nonneg alpha /\ alpha !! t = Some 0 /\
    supported A alpha ->
  exists updated c, em_iteration A tol alpha updated c /\
    (length updated = length A /\ nonneg updated /\ updated !! t = Some 0 /\
     supported A updated) /\
    vsum updated = 1.
Proof.
  intros HA Hnn (Hlen & Hpi & Ht & (t' & r & row & a & p & Hrow & Ha & Hp & Hap)).
  destruct (e_step_same alpha A R Hlen HA) as (HP & HlenW & HW & Hnc).
  set (W := zip_with (fun row p => map (fun a => a * p) row) A alpha) in *.
  assert (HWnn : nonneg2 W) by by apply nonneg_scale_rows.
  assert (HWt' : W !! t' = Some (map (fun a => a * p) row)).
  { unfold W. by rewrite lookup_zip_with, Hrow, Hp. }
  assert (HWne : W <> []) by (intros E; by rewrite E in HWt').
  rewrite (Hnc HWne) in HP. set (s := sum_axis0 R W) in *.
  assert (Hs : length s = R) by by apply length_sum_axis0.
  assert (Hsnn : nonneg s) by by apply nonneg_sum_axis0.
  assert (HPnn : nonneg2 (safe_divide W s)) by by apply nonneg_safe_divide.
  (* the supported entry of the posterior is positive *)
  assert (Hr : (r < R)%nat).
  { apply lookup_lt_Some in Ha.
    rewrite (proj1 (Forall_lookup _ _) HA t' row Hrow) in Ha. done. }
  destruct (lookup_lt_is_Some_2 s r) as [c Hc]; [lia|].
  destruct (row_le_sum_axis0 R W (map (fun a => a * p) row) r (a * p) c)
    as [_ Hle]; try done.
  { by eapply list_elem_of_lookup_2. }
  { by rewrite list_lookup_fmap, Ha. }
  assert (Hcpos : 0 < c) by by eapply Qclt_le_trans.
  set (prow' := zip_with (fun w c => if Qceqb c 0 then 0 else w / c)
                  (map (fun a => a * p) row) s).
  assert (HPt' : safe_divide W s !! t' = Some prow').
  { unfold safe_divide. by rewrite list_lookup_fmap, HWt'. }
  assert (Hentry : prow' !! r = Some (a * p / c)).
  { unfold prow'. rewrite lookup_zip_with, list_lookup_fmap, Ha, Hc. simpl.
    apply Qclt_not_eq in Hcpos.
    by rewrite (proj2 (Qceqb_false c 0)) by congruence. }
  assert (Hprow'nn : nonneg prow').
  { eapply (proj1 (Forall_lookup _ _) HPnn); eauto. }
  assert (Hcount : 0 < vsum prow').
  { eapply Qclt_le_trans; [by apply (Qcdiv_pos (a * p) c)|].
    by eapply lookup_le_vsum. }
  assert (Htotal : 0 < vsum (sum_axis1 (safe_divide W s))).
  { eapply Qclt_le_trans; [exact Hcount|].
    eapply lookup_le_vsum; [by apply nonneg_sum_axis1|].
    unfold sum_axis1. by rewrite list_lookup_fmap, HPt'. }
  (* the row of the transcript at 0 is zero *)
  destruct (lookup_lt_is_Some_2 A t) as [rowt Hrowt].
  { rewrite <- Hlen. by eapply lookup_lt_Some. }
  assert (HPt : safe_divide W s !! t =
                Some (zip_with (fun w c => if Qceqb c 0 then 0 else w / c)
                        (map (fun a => a * 0) rowt) s)).
  { unfold safe_divide, W.
    by rewrite list_lookup_fmap, lookup_zip_with, Hrowt, Ht. }
  assert (Hzero : vsum (zip_with (fun w c => if Qceqb c 0 then 0 else w / c)
                          (map (fun a => a * 0) rowt) s) = 0).
  { generalize s. clear. induction rowt as [|x rowt IH]; intros [|c s];
      try done.
    simpl. fold (vsum (zip_with (fun w c => if Qceqb c 0 then 0 else w / c)
                         (map (fun a => a * 0) rowt) s)).
    rewrite IH. destruct (Qceqb c 0); [ring|].
    unfold Qcdiv. ring. }
  (* the update *)
  set (P := safe_divide W s) in *.
  set (u := map (fun c => c / vsum (sum_axis1 P)) (sum_axis1 P)).
  assert (Hu : m_step P A = Ok u) by by apply m_step_normalise.
  assert (HPne : P <> []) by (intros E; by rewrite E in HPt').
  destruct (m_step_spec P A HPne) as (u' & Hu' & Hlenu & Hsum & Hnnu).
  assert (u' = u) by congruence. subst u'.
  assert (HlenP : length P = length A).
  { unfold P. rewrite length_safe_divide. done. }
  assert (Hane : alpha <> []) by (intros E; by rewrite E in Ht).
  destruct (converged_same_length u alpha tol) as (b & Hb);
    [congruence|done|].
  exists u, b. split; [by exists P|]. split; [|done].
  split; [congruence|]. split; [by apply Hnnu|]. split.
  - unfold u, sum_axis1. rewrite !list_lookup_fmap, HPt. simpl.
    rewrite Hzero. f_equal. unfold Qcdiv. ring.
  - assert (Hrownn : 0 <= a).
    { eapply (proj1 (Forall_lookup _ _)
                (proj1 (Forall_lookup _ _) Hnn t' row Hrow)); eauto. }
    assert (Hpnn : 0 <= p) by (eapply (proj1 (Forall_lookup _ _) Hpi); eauto).
    destruct (Qcmult_pos_inv a p Hrownn Hpnn Hap) as [Hapos _].
    exists t', r, row, a, (vsum prow' / vsum (sum_axis1 P)).
    repeat split; try done.
    + unfold u, sum_axis1. by rewrite !list_lookup_fmap, HPt'.
    + apply Qcmult_pos_pos; [done|]. by apply Qcdiv_pos.
Qed.

Lemma binary_nonneg2 (A : matrix) : binary A -> nonneg2 A.
Proof.
  intros HA. eapply Forall_impl; [exact HA|]. intros row Hrow.
  eapply Forall_impl; [exact Hrow|]. by intros a [-> | ->].
Qed.

(** X16. Zero abundance is absorbing.  For a rectangular 0/1 matrix
    and a non-negative start with one entry per row, in the range of
    float64, under which some read has support, a transcript that
    starts at abundance 0 is at abundance 0 in the vector
    [run_em_algorithm] returns, whatever the tolerance and the budget;
    the run does not raise. *)
Theorem zero_abundance_absorbing (A : matrix) (R : nat) (alpha : vector)
    (t : nat) (tol : Qc) (max_iters : Z) (out : list string) :
  rect R A -> binary A -> length alpha = length A -> nonneg alpha ->
  in_range alpha A R ->
  supported A alpha -> alpha !! t = Some 0 ->
  exists v n out',
    run_em_algorithm A (Some alpha) tol max_iters out = (Ok (v, n), out') /\
    v !! t = Some 0 /\ nonneg v.
Proof.
  intros HA Hbin Hlen Hpi _ Hsupp Ht.
  apply binary_nonneg2 in Hbin as Hnn.
  destruct (em_loop_invariant
              (fun alpha => length alpha = length A /\ nonneg alpha /\
                            alpha !! t = Some 0 /\ supported A alpha)
              (fun alpha => vsum alpha = 1) A tol) with
    (remaining := Z.to_nat max_iters) (iteration := 0%Z) (alpha := alpha)
    as (ex & Hex & (_ & Hn & Hz & _) & _).
  { intros alpha'. by apply (em_iteration_supported A R). }
  { done. }
  destruct (run_em_algorithm_loop A (Some alpha) tol max_iters out alpha ex
              eq_refl Hex) as (n & out' & Hrun).
  by exists (exit_alpha ex), n, out'.
Qed.

Lemma zero_abundance_absorbing_witness :
  binary test_assignment_matrix /\
  in_range [0; 1] test_assignment_matrix 2 /\
  supported test_assignment_matrix [0; 1] /\
  exists v n out',
    run_em_algorithm test_assignment_matrix (Some [0; 1]) default_tol 2 [] =
      (Ok (v, n), out') /\
    v !! 0%nat = Some 0 /\ nonneg v.
Proof.
  assert (H1 : binary test_assignment_matrix).
  { repeat constructor; by_compute. }
  assert (H2 : in_range [0; 1] test_assignment_matrix 2).
  { intros [|[|r]] Hr; [by_compute|by_compute|lia]. }
  assert (H3 : supported test_assignment_matrix [0; 1]).
  { exists 1%nat, 0%nat, [1; 1], 1, 1.
    split; [reflexivity|]. split; [reflexivity|]. split; [reflexivity|].
    by_compute. }
  split; [exact H1|]. split; [exact H2|]. split; [exact H3|].
  apply (zero_abundance_absorbing test_assignment_matrix 2 [0; 1] 0).
  - repeat constructor.
  - exact H1.
  - reflexivity.
  - by_compute.
  - exact H2.
  - exact H3.
  - reflexivity.
Defined.

(** ** The names [main] prints *)

(** X17. The names under which [main] prints the estimate are
    consistent with the rows of [create_example_data]: the run on the
    example data returns three abundances, and each isoform name is
    paired with the abundance of the row that carries that name (the
    reordering of the names and the reordering of the values cancel). *)
Theorem main_results_labels (tol : Qc) (max_iters : Z) (out : list string) :
  exists v n out' res,
    run_em_algorithm create_example_data None tol max_iters out =
      (Ok (v, n), out') /\
    main_results v = Some res /\
    map fst res = isoform_names /\
    Forall (fun i =>
              exists name x, row_isoform !! i = Some name /\
                v !! i = Some x /\ (name, x) ∈ res)
      [0%nat; 1%nat; 2%nat].
Proof.
  destruct (em_loop_invariant
              (fun alpha => length alpha = length create_example_data)
              (fun _ => True) create_example_data tol) with
    (remaining := Z.to_nat max_iters) (iteration := 0%Z)
    (alpha := np_full 3 (1 / Qc_of_Z (Z.of_nat 3)))
    as (ex & Hex & Hl & _).
  { intros alpha' Hl'.
    destruct (em_iteration_total create_example_data tol alpha')
      as (u & c & Hit & Hlu & _); [done|done|]. by exists u, c. }
  { done. }
  destruct (run_em_algorithm_loop create_example_data None tol max_iters out
              _ ex eq_refl Hex) as (n & out' & Hrun).
  destruct (exit_alpha ex) as [|x0 [|x1 [|x2 [|? ?]]]]; try done.
  exists [x0; x1; x2], n, out', [("Red", x0); ("Blue", x2); ("Green", x1)].
  split; [done|]. split; [done|]. split; [done|].
  repeat constructor.
  - exists "Red", x0. repeat split. set_solver.
  - exists "Green", x1. repeat split. set_solver.
  - exists "Blue", x2. repeat split. set_solver.
Qed.

(** ** The operations on array objects compute the values *)

(** X19. Run operation by operation on array objects, [e_step] on a
    1-D abundance array and a 2-D matrix (integer or float) is never
    stuck and ends as the value-level [e_step] does: it raises the
    same exception, or it returns a float array holding exactly the
    posterior; in particular [np.divide] with [out=np.zeros_like(...)]
    and [where=col_sums != 0] yields the quotient where the column sum
    is not 0 and 0 elsewhere.  Nothing is printed. *)
Theorem store_e_step_computes (lpi lA : Heap.loc) (dpi dA : Heap.dtype)
    (pi : vector) (A : matrix) (w : Heap.world) :
  Heap.heap w !! lpi = Some (Heap.Vec dpi pi) ->
  Heap.heap w !! lA = Some (Heap.Mat dA A) ->
  match e_step pi A with
  | Ok P =>
      exists l w', Heap.e_step lpi lA w = (Heap.Val l, w') /\
        Heap.heap w' !! l = Some (Heap.Mat Heap.Float64 P) /\
        Heap.stdout w' = Heap.stdout w
  | Raise e =>
      exists w', Heap.e_step lpi lA w = (Heap.Exn e, w') /\
        Heap.stdout w' = Heap.stdout w
  end.
Proof.
  intros Hpi HA. destruct (e_step pi A) as [P|e] eqn:HP.
  - destruct (e_step_returns lpi lA dpi pi dA A P w Hpi HA HP)
      as (l & w' & E & _ & Hout & Hl).
    by exists l, w'.
  - destruct (e_step_raises lpi lA dpi pi dA A e w Hpi HA HP)
      as (w' & E & _ & Hout).
    by exists w'.
Qed.

Lemma store_e_step_computes_witness :
  exists l w', Heap.e_step 4%nat 3%nat world_b = (Heap.Val l, w') /\
    Heap.heap w' !! l =
      Some (Heap.Mat Heap.Float64 [[1 / 2; 1 / 2]; [1 / 2; 1 / 2]]) /\
    Heap.stdout w' = Heap.stdout world_b.
Proof.
  assert (HP : e_step test_abundance equal_matrix =
               Ok [[1 / 2; 1 / 2]; [1 / 2; 1 / 2]]) by by_compute.
  pose proof (store_e_step_computes 4%nat 3%nat Heap.Float64 Heap.Float64
                test_abundance equal_matrix world_b eq_refl eq_refl) as H.
  rewrite HP in H. exact H.
Defined.

(** X20. Run operation by operation on array objects,
    [run_em_algorithm] on a 2-D matrix and a start that is absent or a
    1-D array is never stuck and ends as the value-level function
    does on the contents: the same exception, or the same iteration
    count with a float array holding the same estimate, and the same
    text on standard output. *)
Theorem store_run_em_algorithm_computes (lA : Heap.loc) (dA : Heap.dtype)
    (A : matrix) (init : option vector) (linit : option Heap.loc)
    (tol : Qc) (max_iters : Z) (w : Heap.world) :
  Heap.heap w !! lA = Some (Heap.Mat dA A) ->
  init_rel w init linit ->
  run_rel (run_em_algorithm A init tol max_iters (Heap.stdout w))
    (Heap.run_em_algorithm lA linit tol max_iters w).
Proof. apply run_em_algorithm_refines. Qed.

Lemma store_run_em_algorithm_computes_witness :
  run_rel (run_em_algorithm equal_matrix (Some test_abundance) default_tol 1
             (Heap.stdout world_b))
    (Heap.run_em_algorithm 3%nat (Some 4%nat) default_tol 1 world_b).
Proof.
  apply (store_run_em_algorithm_computes 3%nat Heap.Float64).
  - reflexivity.
  - by exists Heap.Float64.
Defined.
